(** * Client-side key session and secret codec of the password manager

    A shallow embedding of [src/services/encryption.ts] (the session key held
    in a module variable, and the sealing and opening of secret strings with
    it), of the library functions it calls with the signatures their
    packages document (the UTF-8 and base64 codecs of buffer, SHA-256 and
    Argon2id of @noble/hashes, ChaCha20-Poly1305 of @noble/ciphers) and of
    the password hashing helpers of [backend/src/utils/crypto.ts].

    Byte arrays are lists of integers in [0, 256), JavaScript strings are
    lists of UTF-16 code units, and the module's state is a record that is
    passed from call to call.  The first part holds the definitions, the
    second the facts about them. *)

From Stdlib Require Import ZArith List Lia Bool String Ascii.
From stdpp Require Import base list.
Import ListNotations.
Open Scope Z_scope.

(** ** Part I: the embedding *)

Module Bytes.

(** A JavaScript string is a sequence of UTF-16 code units, each in
    [0, 65536); a byte array (Uint8Array, Buffer) is a sequence of
    octets, each in [0, 256). *)
Abbreviation jsstring := (list Z).
Abbreviation bytes := (list Z).

Definition is_byte (b : Z) : Prop := 0 <= b < 256.
Definition is_code_unit (c : Z) : Prop := 0 <= c < 65536.

(** String literals of this development are ASCII; [js] reads one as the
    JavaScript string with the same code units. *)
Definition js (s : string) : jsstring :=
  map (fun a => Z.of_N (N_of_ascii a)) (list_ascii_of_string s).


(** What a called function gives back: a value, or a thrown exception. *)
Inductive result (E A : Type) : Type :=
| Ok (a : A)
| Throw (e : E).
Arguments Ok {E A} a.
Arguments Throw {E A} e.


(** The values this development passes to library functions: what the
    source writes as no argument at all, a number, a string, a byte array
    or an object literal. *)
#[warnings="-register-all"] Inductive JsValue : Type :=
| JsUndefined
| JsNumber (n : Z)
| JsString (s : jsstring)
| JsUint8Array (data : bytes)
| JsObject (fields : list (string * JsValue)).

Definition field (name : string) (v : JsValue) : string * JsValue := (name, v).

(** [o[name]]: the last entry of that name decides, a missing one gives
    [undefined]. *)
Definition getField (name : string) (fields : list (string * JsValue)) : JsValue :=
  fold_left (fun found entry => if String.eqb (fst entry) name then snd entry else found)
            fields JsUndefined.

(** [!v] *)
Definition isFalsy (v : JsValue) : bool :=
  match v with
  | JsUndefined => true
  | JsNumber n => n =? 0
  | JsString s => match s with [] => true | _ => false end
  | JsUint8Array _ => false
  | JsObject _ => false
  end.


(** Words and their byte order. *)
Definition be32 (w : Z) : bytes :=
  [Z.shiftr w 24 mod 256; Z.shiftr w 16 mod 256; Z.shiftr w 8 mod 256; w mod 256].

Definition le32 (w : Z) : bytes :=
  [w mod 256; Z.shiftr w 8 mod 256; Z.shiftr w 16 mod 256; Z.shiftr w 24 mod 256].

Definition le64 (w : Z) : bytes := le32 (w mod 2 ^ 32) ++ le32 (Z.shiftr w 32).

Definition be64 (w : Z) : bytes := be32 (Z.shiftr w 32) ++ be32 (w mod 2 ^ 32).

Definition fromBytesBE (l : bytes) : Z := fold_left (fun acc b => acc * 256 + b) l 0.

Definition fromBytesLE (l : bytes) : Z := fold_right (fun b acc => b + 256 * acc) 0 l.

(** [chunks n l]: [l] cut into pieces of [n] elements (the last one may be
    shorter). *)
Fixpoint chunks_fuel {A} (fuel n : nat) (l : list A) : list (list A) :=
  match fuel, l with
  | _, [] => []
  | O, _ => []
  | S fuel', _ => take n l :: chunks_fuel fuel' n (drop n l)
  end.

Definition chunks {A} (n : nat) (l : list A) : list (list A) :=
  chunks_fuel (length l) n l.


(** The word at index [i] of a state (0 outside it). *)
Definition word (st : list Z) (i : nat) : Z := nth i st 0.


(** Lower-case hexadecimal text of a byte array. *)
Definition hexDigit (d : Z) : Z := if d <? 10 then 48 + d else 87 + d.
Definition toHex (l : bytes) : jsstring :=
  flat_map (fun b => [hexDigit (b / 16); hexDigit (b mod 16)]) l.

End Bytes.
Import Bytes.

Module Utf8.

(** [Buffer.from(string, "utf-8")]: the loop of [utf8ToBytes] in the
    [buffer] package, with [units = Infinity].  One code unit is read per
    iteration; [leadSurrogate] is the pending high surrogate. *)
Definition replacementBytes : bytes := [0xEF; 0xBF; 0xBD].

Definition encodeCodePoint (codePoint : Z) : bytes :=
  if codePoint <? 0x80 then
    [codePoint]
  else if codePoint <? 0x800 then
    [Z.lor (Z.shiftr codePoint 0x6) 0xC0;
     Z.lor (Z.land codePoint 0x3F) 0x80]
  else if codePoint <? 0x10000 then
    [Z.lor (Z.shiftr codePoint 0xC) 0xE0;
     Z.lor (Z.land (Z.shiftr codePoint 0x6) 0x3F) 0x80;
     Z.lor (Z.land codePoint 0x3F) 0x80]
  else if codePoint <? 0x110000 then
    [Z.lor (Z.shiftr codePoint 0x12) 0xF0;
     Z.lor (Z.land (Z.shiftr codePoint 0xC) 0x3F) 0x80;
     Z.lor (Z.land (Z.shiftr codePoint 0x6) 0x3F) 0x80;
     Z.lor (Z.land codePoint 0x3F) 0x80]
  else
    (* throw new Error('Invalid code point'): out of reach, a code unit is
       below 0x10000 and a surrogate pair combines to less than 0x110000 *)
    [].

Definition isSurrogate (c : Z) : bool := (0xD7FF <? c) && (c <? 0xE000).

Definition combineSurrogates (leadSurrogate codePoint : Z) : Z :=
  Z.lor (Z.shiftl (leadSurrogate - 0xD800) 10) (codePoint - 0xDC00) + 0x10000.

Fixpoint utf8ToBytes_from (leadSurrogate : option Z) (s : jsstring) : bytes :=
  match s with
  | [] => []
  | codePoint :: rest =>
      if isSurrogate codePoint then
        match leadSurrogate with
        | None =>
            if 0xDBFF <? codePoint then
              (* unexpected trail *)
              replacementBytes ++ utf8ToBytes_from None rest
            else
              match rest with
              | [] => (* unpaired lead *) replacementBytes
              | _ :: _ => (* valid lead *) utf8ToBytes_from (Some codePoint) rest
              end
        | Some lead =>
            if codePoint <? 0xDC00 then
              (* 2 leads in a row *)
              replacementBytes ++ utf8ToBytes_from (Some codePoint) rest
            else
              (* valid surrogate pair *)
              encodeCodePoint (combineSurrogates lead codePoint)
                ++ utf8ToBytes_from None rest
        end
      else
        (* valid bmp char, but last char was a lead *)
        (match leadSurrogate with Some _ => replacementBytes | None => [] end)
          ++ encodeCodePoint codePoint ++ utf8ToBytes_from None rest
  end.

Definition utf8ToBytes (s : jsstring) : bytes := utf8ToBytes_from None s.

(** [buf.toString("utf-8")]: the loop of [utf8Slice] over the whole
    buffer.  An ill-formed sequence yields U+FFFD and advances one byte. *)
Definition bytesPerSequence (firstByte : Z) : nat :=
  if 0xEF <? firstByte then 4
  else if 0xDF <? firstByte then 3
  else if 0xBF <? firstByte then 2
  else 1.

Definition isContinuation (b : Z) : bool := Z.land b 0xC0 =? 0x80.

Definition decode1 (firstByte : Z) : option Z :=
  if firstByte <? 0x80 then Some firstByte else None.

Definition decode2 (firstByte secondByte : Z) : option Z :=
  if isContinuation secondByte then
    let tempCodePoint :=
      Z.lor (Z.shiftl (Z.land firstByte 0x1F) 0x6) (Z.land secondByte 0x3F) in
    if 0x7F <? tempCodePoint then Some tempCodePoint else None
  else None.

Definition decode3 (firstByte secondByte thirdByte : Z) : option Z :=
  if isContinuation secondByte && isContinuation thirdByte then
    let tempCodePoint :=
      Z.lor (Z.lor (Z.shiftl (Z.land firstByte 0xF) 0xC)
                   (Z.shiftl (Z.land secondByte 0x3F) 0x6))
            (Z.land thirdByte 0x3F) in
    if (0x7FF <? tempCodePoint)
       && ((tempCodePoint <? 0xD800) || (0xDFFF <? tempCodePoint))
    then Some tempCodePoint else None
  else None.

Definition decode4 (firstByte secondByte thirdByte fourthByte : Z) : option Z :=
  if isContinuation secondByte && isContinuation thirdByte
     && isContinuation fourthByte then
    let tempCodePoint :=
      Z.lor (Z.lor (Z.lor (Z.shiftl (Z.land firstByte 0xF) 0x12)
                          (Z.shiftl (Z.land secondByte 0x3F) 0xC))
                   (Z.shiftl (Z.land thirdByte 0x3F) 0x6))
            (Z.land fourthByte 0x3F) in
    if (0xFFFF <? tempCodePoint) && (tempCodePoint <? 0x110000)
    then Some tempCodePoint else None
  else None.

(** The code units pushed for one decoded code point (the "surrogate pair
    dance" above 0xFFFF). *)
Definition pushCodePoint (codePoint : Z) : jsstring :=
  if 0xFFFF <? codePoint then
    let c := codePoint - 0x10000 in
    [Z.lor (Z.land (Z.shiftr c 10) 0x3FF) 0xD800;
     Z.lor 0xDC00 (Z.land c 0x3FF)]
  else [codePoint].

Fixpoint utf8Slice (buf : bytes) : jsstring :=
  match buf with
  | [] => []
  | firstByte :: t1 =>
      let invalid := 0xFFFD :: utf8Slice t1 in
      match bytesPerSequence firstByte, t1 with
      | 1%nat, _ =>
          match decode1 firstByte with
          | Some cp => pushCodePoint cp ++ utf8Slice t1
          | None => invalid
          end
      | 2%nat, secondByte :: t2 =>
          match decode2 firstByte secondByte with
          | Some cp => pushCodePoint cp ++ utf8Slice t2
          | None => invalid
          end
      | 3%nat, secondByte :: thirdByte :: t3 =>
          match decode3 firstByte secondByte thirdByte with
          | Some cp => pushCodePoint cp ++ utf8Slice t3
          | None => invalid
          end
      | 4%nat, secondByte :: thirdByte :: fourthByte :: t4 =>
          match decode4 firstByte secondByte thirdByte fourthByte with
          | Some cp => pushCodePoint cp ++ utf8Slice t4
          | None => invalid
          end
      | _, _ => (* i + bytesPerSequence > end *) invalid
      end
  end.

(** A string is well formed (it is the UTF-16 form of a sequence of Unicode
    scalar values) when every surrogate is half of a high-low pair. *)
Fixpoint wellFormed (s : jsstring) : bool :=
  match s with
  | [] => true
  | c :: rest =>
      if (0 <=? c) && (c <? 0xD800) || (0xDFFF <? c) && (c <? 0x10000) then
        wellFormed rest
      else if (0xD800 <=? c) && (c <? 0xDC00) then
        match rest with
        | d :: rest' => (0xDC00 <=? d) && (d <? 0xE000) && wellFormed rest'
        | [] => false
        end
      else false
  end.

(** The pending surrogate of [utf8ToBytes_from], when there is one, is a
    high surrogate. *)
Definition pendingLead (leadSurrogate : option Z) : Prop :=
  match leadSurrogate with
  | None => True
  | Some h => 0xD800 <= h < 0xDC00
  end.

End Utf8.
Import Utf8.

Module Base64.

(** [buf.toString("base64")] and [Buffer.from(str, "base64")] of the
    [buffer] package (base64-js). *)
Definition code : jsstring :=
  js "ABCDEFGHIJKLMNOPQRSTUVWXYZabcdefghijklmnopqrstuvwxyz0123456789+/".

Definition lookup (i : Z) : Z := nth (Z.to_nat i) code 0.

Definition padChar : Z := 61. (* '=' *)

Fixpoint indexOf (c : Z) (s : jsstring) : option Z :=
  match s with
  | [] => None
  | d :: rest =>
      if d =? c then Some 0
      else match indexOf c rest with Some i => Some (i + 1) | None => None end
  end.

(** [revLookup[c]]: the index of [c] in [code]; '-' and '_' stand for 62 and
    63 (URL-safe alphabet).  A character without an entry reads as
    [undefined], which the bitwise operators take as 0. *)
Definition revLookup (c : Z) : Z :=
  if c =? 45 then 62
  else if c =? 95 then 63
  else match indexOf c code with Some i => i | None => 0 end.

Definition tripletToBase64 (num : Z) : jsstring :=
  [lookup (Z.land (Z.shiftr num 18) 0x3F);
   lookup (Z.land (Z.shiftr num 12) 0x3F);
   lookup (Z.land (Z.shiftr num 6) 0x3F);
   lookup (Z.land num 0x3F)].

(** [fromByteArray]: three bytes give four characters; one or two
    remaining bytes give a padded group. *)
Fixpoint fromByteArray (uint8 : bytes) : jsstring :=
  match uint8 with
  | [] => []
  | [a] =>
      let tmp := a in
      [lookup (Z.shiftr tmp 2); lookup (Z.land (Z.shiftl tmp 4) 0x3F);
       padChar; padChar]
  | [a; b] =>
      let tmp := Z.shiftl a 8 + b in
      [lookup (Z.shiftr tmp 10); lookup (Z.land (Z.shiftr tmp 4) 0x3F);
       lookup (Z.land (Z.shiftl tmp 2) 0x3F); padChar]
  | a :: b :: c :: rest =>
      let tmp := Z.land (Z.shiftl a 16) 0xFF0000
                 + Z.land (Z.shiftl b 8) 0xFF00
                 + Z.land c 0xFF in
      tripletToBase64 tmp ++ fromByteArray rest
  end.

(** INVALID_BASE64_RE = /[^+/0-9A-Za-z-_]/g: the characters that stay. *)
Definition isBase64Char (c : Z) : bool :=
  (c =? 43) || (c =? 47) || ((48 <=? c) && (c <=? 57))
  || ((65 <=? c) && (c <=? 90)) || ((97 <=? c) && (c <=? 122))
  || (c =? 45) || (c =? 95).

Fixpoint beforePad (str : jsstring) : jsstring :=
  match str with
  | [] => []
  | c :: rest => if c =? padChar then [] else c :: beforePad rest
  end.

(** [base64clean]: the text before the first '=' ([str.split('=')[0]]),
    without the characters outside the alphabet (trimming included), and
    nothing at all when fewer than two characters are left.  The source
    then pads the result with '=' to a multiple of four, which only tells
    [toByteArray] how long the last group is; here the last group is read
    off the list itself. *)
Definition base64clean (str : jsstring) : jsstring :=
  let str := List.filter isBase64Char (beforePad str) in
  if (Z.of_nat (length str) <? 2) then [] else str.

(** [toByteArray] on the cleaned characters: complete groups of four give
    three bytes, a last group of two gives one byte (placeHoldersLen = 2),
    of three gives two bytes (placeHoldersLen = 1), and a single left-over
    character gives nothing. *)
Fixpoint toByteArray (b64 : jsstring) : bytes :=
  match b64 with
  | c0 :: c1 :: c2 :: c3 :: rest =>
      let tmp := Z.lor (Z.lor (Z.lor (Z.shiftl (revLookup c0) 18)
                                     (Z.shiftl (revLookup c1) 12))
                              (Z.shiftl (revLookup c2) 6))
                       (revLookup c3) in
      [Z.land (Z.shiftr tmp 16) 0xFF; Z.land (Z.shiftr tmp 8) 0xFF;
       Z.land tmp 0xFF] ++ toByteArray rest
  | [c0; c1; c2] =>
      let tmp := Z.lor (Z.lor (Z.shiftl (revLookup c0) 10)
                              (Z.shiftl (revLookup c1) 4))
                       (Z.shiftr (revLookup c2) 2) in
      [Z.land (Z.shiftr tmp 8) 0xFF; Z.land tmp 0xFF]
  | [c0; c1] =>
      let tmp := Z.lor (Z.shiftl (revLookup c0) 2)
                       (Z.shiftr (revLookup c1) 4) in
      [Z.land tmp 0xFF]
  | _ => []
  end.

Definition base64ToBytes (str : jsstring) : bytes :=
  toByteArray (base64clean str).

(** The characters [base64clean] keeps, before the check of their number. *)
Definition cleaned (str : jsstring) : jsstring :=
  List.filter isBase64Char (beforePad str).

(** The text [fromByteArray] writes. *)
Definition base64Text (c : Z) : Prop := isBase64Char c = true \/ c = padChar.

End Base64.
Import Base64.

Module Sha256.

(** SHA-256 (FIPS 180-4), the [sha256] of @noble/hashes. *)
Definition add32 (x y : Z) : Z := (x + y) mod 2 ^ 32.

Definition rotr32 (x n : Z) : Z :=
  Z.lor (Z.shiftr x n) (Z.shiftl x (32 - n) mod 2 ^ 32).

Definition Chi (x y z : Z) : Z := Z.lxor (Z.land x y) (Z.land (Z.lnot x) z).
Definition Maj (x y z : Z) : Z :=
  Z.lxor (Z.lxor (Z.land x y) (Z.land x z)) (Z.land y z).
Definition bigSigma0 (x : Z) : Z :=
  Z.lxor (Z.lxor (rotr32 x 2) (rotr32 x 13)) (rotr32 x 22).
Definition bigSigma1 (x : Z) : Z :=
  Z.lxor (Z.lxor (rotr32 x 6) (rotr32 x 11)) (rotr32 x 25).
Definition smallSigma0 (x : Z) : Z :=
  Z.lxor (Z.lxor (rotr32 x 7) (rotr32 x 18)) (Z.shiftr x 3).
Definition smallSigma1 (x : Z) : Z :=
  Z.lxor (Z.lxor (rotr32 x 17) (rotr32 x 19)) (Z.shiftr x 10).

Definition SHA256_K : list Z :=
  [0x428A2F98; 0x71374491; 0xB5C0FBCF; 0xE9B5DBA5; 0x3956C25B; 0x59F111F1;
   0x923F82A4; 0xAB1C5ED5; 0xD807AA98; 0x12835B01; 0x243185BE; 0x550C7DC3;
   0x72BE5D74; 0x80DEB1FE; 0x9BDC06A7; 0xC19BF174; 0xE49B69C1; 0xEFBE4786;
   0x0FC19DC6; 0x240CA1CC; 0x2DE92C6F; 0x4A7484AA; 0x5CB0A9DC; 0x76F988DA;
   0x983E5152; 0xA831C66D; 0xB00327C8; 0xBF597FC7; 0xC6E00BF3; 0xD5A79147;
   0x06CA6351; 0x14292967; 0x27B70A85; 0x2E1B2138; 0x4D2C6DFC; 0x53380D13;
   0x650A7354; 0x766A0ABB; 0x81C2C92E; 0x92722C85; 0xA2BFE8A1; 0xA81A664B;
   0xC24B8B70; 0xC76C51A3; 0xD192E819; 0xD6990624; 0xF40E3585; 0x106AA070;
   0x19A4C116; 0x1E376C08; 0x2748774C; 0x34B0BCB5; 0x391C0CB3; 0x4ED8AA4A;
   0x5B9CCA4F; 0x682E6FF3; 0x748F82EE; 0x78A5636F; 0x84C87814; 0x8CC70208;
   0x90BEFFFA; 0xA4506CEB; 0xBEF9A3F7; 0xC67178F2].

Record sha256_state : Type := mkSha256
  { sA : Z; sB : Z; sC : Z; sD : Z; sE : Z; sF : Z; sG : Z; sH : Z }.

Definition SHA256_IV : sha256_state :=
  mkSha256 0x6A09E667 0xBB67AE85 0x3C6EF372 0xA54FF53A
           0x510E527F 0x9B05688C 0x1F83D9AB 0x5BE0CD19.

(** The message schedule: sixteen words of the block, extended to 64. *)
Fixpoint extendSchedule (n : nat) (w : list Z) : list Z :=
  match n with
  | O => w
  | S n' =>
      let t := length w in
      let at_ (k : nat) := nth (t - k) w 0 in
      extendSchedule n'
        (w ++ [add32 (add32 (add32 (smallSigma1 (at_ 2%nat)) (at_ 7%nat))
                            (smallSigma0 (at_ 15%nat))) (at_ 16%nat)])
  end.

Definition sha256_round (s : sha256_state) (kw : Z * Z) : sha256_state :=
  let '(k, w) := kw in
  let T1 := add32 (add32 (add32 (add32 (sH s) (bigSigma1 (sE s)))
                                (Chi (sE s) (sF s) (sG s))) k) w in
  let T2 := add32 (bigSigma0 (sA s)) (Maj (sA s) (sB s) (sC s)) in
  mkSha256 (add32 T1 T2) (sA s) (sB s) (sC s) (add32 (sD s) T1) (sE s) (sF s) (sG s).

Definition sha256_compress (h : sha256_state) (block : bytes) : sha256_state :=
  let w := extendSchedule 48 (map fromBytesBE (chunks 4 block)) in
  let s := fold_left sha256_round (combine SHA256_K w) h in
  mkSha256 (add32 (sA h) (sA s)) (add32 (sB h) (sB s)) (add32 (sC h) (sC s))
           (add32 (sD h) (sD s)) (add32 (sE h) (sE s)) (add32 (sF h) (sF s))
           (add32 (sG h) (sG s)) (add32 (sH h) (sH s)).

(** Padding: a 0x80 byte, zeros up to 56 modulo 64, the bit length on eight
    bytes. *)
Definition sha256_pad (msg : bytes) : bytes :=
  let len := Z.of_nat (length msg) in
  msg ++ [0x80] ++ repeat 0 (Z.to_nat ((55 - len) mod 64)) ++ be64 (8 * len).

Definition sha256 (msg : bytes) : bytes :=
  let h := fold_left sha256_compress (chunks 64 (sha256_pad msg)) SHA256_IV in
  be32 (sA h) ++ be32 (sB h) ++ be32 (sC h) ++ be32 (sD h)
  ++ be32 (sE h) ++ be32 (sF h) ++ be32 (sG h) ++ be32 (sH h).

End Sha256.
Import Sha256.

Module ChaCha20Poly1305.

(** ChaCha20 (RFC 8439, section 2.3): sixteen 32-bit words. *)
Definition rotl32 (x n : Z) : Z :=
  Z.lor (Z.shiftl x n mod 2 ^ 32) (Z.shiftr x (32 - n)).

Definition quarterRound (a b c d : nat) (st : list Z) : list Z :=
  let st := <[a := add32 (word st a) (word st b)]> st in
  let st := <[d := rotl32 (Z.lxor (word st d) (word st a)) 16]> st in
  let st := <[c := add32 (word st c) (word st d)]> st in
  let st := <[b := rotl32 (Z.lxor (word st b) (word st c)) 12]> st in
  let st := <[a := add32 (word st a) (word st b)]> st in
  let st := <[d := rotl32 (Z.lxor (word st d) (word st a)) 8]> st in
  let st := <[c := add32 (word st c) (word st d)]> st in
  <[b := rotl32 (Z.lxor (word st b) (word st c)) 7]> st.

Definition doubleRound (st : list Z) : list Z :=
  let st := quarterRound 0 4 8 12 st in
  let st := quarterRound 1 5 9 13 st in
  let st := quarterRound 2 6 10 14 st in
  let st := quarterRound 3 7 11 15 st in
  let st := quarterRound 0 5 10 15 st in
  let st := quarterRound 1 6 11 12 st in
  let st := quarterRound 2 7 8 13 st in
  quarterRound 3 4 9 14 st.

(** "expand 32-byte k" *)
Definition sigma : list Z := [0x61707865; 0x3320646e; 0x79622d32; 0x6b206574].

Definition chachaInit (key : bytes) (counter : Z) (nonce : bytes) : list Z :=
  sigma ++ map fromBytesLE (chunks 4 key) ++ [counter mod 2 ^ 32]
        ++ map fromBytesLE (chunks 4 nonce).

Definition chachaBlock (key : bytes) (counter : Z) (nonce : bytes) : bytes :=
  let initial := chachaInit key counter nonce in
  let working := Nat.iter 10 doubleRound initial in
  flat_map le32 (zip_with add32 working initial).

(** The key stream from block [counter] on, XORed into [data]. *)
Definition keyStream (key nonce : bytes) (counter : Z) (nblocks : nat) : bytes :=
  flat_map (fun j => chachaBlock key (counter + Z.of_nat j) nonce) (seq 0 nblocks).

Definition xorStream (key nonce : bytes) (counter : Z) (data : bytes) : bytes :=
  zip_with Z.lxor data (keyStream key nonce counter ((length data + 63) / 64)%nat).

(** Poly1305 (RFC 8439, section 2.5). *)
Definition poly1305_p : Z := 2 ^ 130 - 5.

Definition clamp (r : Z) : Z := Z.land r 0x0ffffffc0ffffffc0ffffffc0fffffff.

Definition poly1305 (key msg : bytes) : bytes :=
  let r := clamp (fromBytesLE (take 16 key)) in
  let s := fromBytesLE (take 16 (drop 16 key)) in
  let acc := fold_left
               (fun acc block => ((acc + fromBytesLE (block ++ [1])) * r) mod poly1305_p)
               (chunks 16 msg) 0 in
  let tag := (acc + s) mod 2 ^ 128 in
  le64 (tag mod 2 ^ 64) ++ le64 (Z.shiftr tag 64).

(** The AEAD construction (RFC 8439, section 2.8). *)
Definition pad16 (data : bytes) : bytes :=
  repeat 0 (Z.to_nat ((- Z.of_nat (length data)) mod 16)).

Definition computeTag (key nonce data aad : bytes) : bytes :=
  let authKey := take 32 (chachaBlock key 0 nonce) in
  poly1305 authKey
    (aad ++ pad16 aad ++ data ++ pad16 data
         ++ le64 (Z.of_nat (length aad)) ++ le64 (Z.of_nat (length data))).

(** [equalBytes]: same length, and the OR of the byte-wise XORs is 0. *)
Definition equalBytes (a b : bytes) : bool :=
  (length a =? length b)%nat
  && (fold_left Z.lor (zip_with Z.lxor a b) 0 =? 0).

(** The errors of @noble/ciphers. *)
Inductive CipherError : Type :=
| BytesExpected     (* "Uint8Array expected" *)
| NonceRequired     (* "nonce / iv required" *)
| BadNonceLength
| BadKeyLength
| BadOutputLength
| DataTooShort
| InvalidTag.

Definition tagLength : nat := 16.

Definition aeadEncrypt (key nonce plaintext aad : bytes) : result CipherError bytes :=
  if negb (length nonce =? 12)%nat then Throw BadNonceLength
  else
    let output := xorStream key nonce 1 plaintext in
    let tag := computeTag key nonce output aad in
    Ok (output ++ tag).

Definition aeadDecrypt (key nonce ciphertext aad : bytes) : result CipherError bytes :=
  if negb (length nonce =? 12)%nat then Throw BadNonceLength
  else if (length ciphertext <? tagLength)%nat then Throw DataTooShort
  else
    let plength := (length ciphertext - tagLength)%nat in
    let data := take plength ciphertext in
    let passedTag := drop plength ciphertext in
    let tag := computeTag key nonce data aad in
    if negb (equalBytes passedTag tag) then Throw InvalidTag
    else Ok (xorStream key nonce 1 data).

(** [chacha20poly1305(key, nonce, AAD)] of @noble/ciphers: the key and
    the nonce are fixed when the cipher object is made, the associated data
    is optional; [encrypt(data, output)] and [decrypt(data, output)] take
    the data and, optionally, the array to write the result to. *)
Record Cipher : Type := mkCipher
  { cipherKey : bytes; cipherNonce : bytes; cipherAAD : bytes }.

Definition chacha20poly1305 (key nonce AAD : JsValue) : result CipherError Cipher :=
  match key with
  | JsUint8Array k =>
      if isFalsy nonce then Throw NonceRequired
      else
        match nonce with
        | JsUint8Array n =>
            if negb (length n =? 12)%nat then Throw BadNonceLength
            else
              match AAD with
              | JsUndefined => Ok (mkCipher k n [])
              | JsUint8Array a => Ok (mkCipher k n a)
              | _ => Throw BytesExpected
              end
        | _ => Throw BytesExpected
        end
  | _ => Throw BytesExpected
  end.

(** The array a method writes to: a fresh one, or [output] when it has
    the length of the result. *)
Definition checkOutput (expected : nat) (output : JsValue) : result CipherError unit :=
  match output with
  | JsUndefined => Ok tt
  | JsUint8Array out =>
      if (length out =? expected)%nat then Ok tt else Throw BadOutputLength
  | _ => Throw BytesExpected
  end.

Definition encrypt (cipher : Cipher) (data output : JsValue) : result CipherError bytes :=
  match data with
  | JsUint8Array plaintext =>
      if negb (length (cipherKey cipher) =? 32)%nat then Throw BadKeyLength
      else
        match checkOutput (length plaintext + tagLength) output with
        | Throw e => Throw e
        | Ok _ => aeadEncrypt (cipherKey cipher) (cipherNonce cipher) plaintext
                              (cipherAAD cipher)
        end
  | _ => Throw BytesExpected
  end.

Definition decrypt (cipher : Cipher) (data output : JsValue) : result CipherError bytes :=
  match data with
  | JsUint8Array ciphertext =>
      if negb (length (cipherKey cipher) =? 32)%nat then Throw BadKeyLength
      else
        match checkOutput (length ciphertext - tagLength) output with
        | Throw e => Throw e
        | Ok _ => aeadDecrypt (cipherKey cipher) (cipherNonce cipher) ciphertext
                              (cipherAAD cipher)
        end
  | _ => Throw BytesExpected
  end.

End ChaCha20Poly1305.
Import ChaCha20Poly1305.

Module Blake2b.

(** BLAKE2b (RFC 7693), unkeyed, the hash inside Argon2. *)
Definition wrap64 (x : Z) : Z := Z.land x 0xFFFFFFFFFFFFFFFF.

Definition add64 (x y : Z) : Z := wrap64 (x + y).

Definition rotr64 (x n : Z) : Z :=
  Z.lor (Z.shiftr x n) (wrap64 (Z.shiftl x (64 - n))).

Definition BLAKE2B_IV : list Z :=
  [0x6a09e667f3bcc908; 0xbb67ae8584caa73b; 0x3c6ef372fe94f82b;
   0xa54ff53a5f1d36f1; 0x510e527fade682d1; 0x9b05688c2b3e6c1f;
   0x1f83d9abfb41bd6b; 0x5be0cd19137e2179].

Definition BLAKE2B_SIGMA : list (list nat) :=
  [[0; 1; 2; 3; 4; 5; 6; 7; 8; 9; 10; 11; 12; 13; 14; 15];
   [14; 10; 4; 8; 9; 15; 13; 6; 1; 12; 0; 2; 11; 7; 5; 3];
   [11; 8; 12; 0; 5; 2; 15; 13; 10; 14; 3; 6; 7; 1; 9; 4];
   [7; 9; 3; 1; 13; 12; 11; 14; 2; 6; 5; 10; 4; 0; 15; 8];
   [9; 0; 5; 7; 2; 4; 10; 15; 14; 1; 11; 12; 6; 8; 3; 13];
   [2; 12; 6; 10; 0; 11; 8; 3; 4; 13; 7; 5; 15; 14; 1; 9];
   [12; 5; 1; 15; 14; 13; 4; 10; 0; 7; 6; 3; 9; 2; 8; 11];
   [13; 11; 7; 14; 12; 1; 3; 9; 5; 0; 15; 4; 8; 6; 2; 10];
   [6; 15; 14; 9; 11; 3; 0; 8; 12; 2; 13; 7; 1; 4; 10; 5];
   [10; 2; 8; 4; 7; 6; 1; 5; 15; 11; 9; 14; 3; 12; 13; 0]]%nat.

Definition blake2bG (a b c d : nat) (x y : Z) (v : list Z) : list Z :=
  let v := <[a := add64 (add64 (word v a) (word v b)) x]> v in
  let v := <[d := rotr64 (Z.lxor (word v d) (word v a)) 32]> v in
  let v := <[c := add64 (word v c) (word v d)]> v in
  let v := <[b := rotr64 (Z.lxor (word v b) (word v c)) 24]> v in
  let v := <[a := add64 (add64 (word v a) (word v b)) y]> v in
  let v := <[d := rotr64 (Z.lxor (word v d) (word v a)) 16]> v in
  let v := <[c := add64 (word v c) (word v d)]> v in
  <[b := rotr64 (Z.lxor (word v b) (word v c)) 63]> v.

Definition blake2bRound (m : list Z) (v : list Z) (r : nat) : list Z :=
  let s := nth (r mod 10) BLAKE2B_SIGMA [] in
  let mw (i : nat) := word m (nth i s 0%nat) in
  let v := blake2bG 0 4 8 12 (mw 0%nat) (mw 1%nat) v in
  let v := blake2bG 1 5 9 13 (mw 2%nat) (mw 3%nat) v in
  let v := blake2bG 2 6 10 14 (mw 4%nat) (mw 5%nat) v in
  let v := blake2bG 3 7 11 15 (mw 6%nat) (mw 7%nat) v in
  let v := blake2bG 0 5 10 15 (mw 8%nat) (mw 9%nat) v in
  let v := blake2bG 1 6 11 12 (mw 10%nat) (mw 11%nat) v in
  let v := blake2bG 2 7 8 13 (mw 12%nat) (mw 13%nat) v in
  blake2bG 3 4 9 14 (mw 14%nat) (mw 15%nat) v.

(** The compression function F: [h] the chaining value, [block] 128 bytes,
    [t] the byte counter, [final] the last-block flag. *)
Definition blake2bCompress (h : list Z) (block : bytes) (t : Z) (final : bool)
  : list Z :=
  let m := map fromBytesLE (chunks 8 block) in
  let v := h ++ BLAKE2B_IV in
  let v := <[12%nat := Z.lxor (word v 12) (wrap64 t)]> v in
  let v := <[13%nat := Z.lxor (word v 13) (Z.shiftr t 64)]> v in
  let v := if final
           then <[14%nat := Z.lxor (word v 14) (2 ^ 64 - 1)]> v else v in
  let v := fold_left (blake2bRound m) (seq 0 12) v in
  map (fun i => Z.lxor (Z.lxor (word h i) (word v i)) (word v (i + 8)))
      (seq 0 8).

(** All blocks but the last, then the last one padded with zeros. *)
Fixpoint blake2bBlocks (h : list Z) (t : Z) (blocks : list bytes) : list Z :=
  match blocks with
  | [] => blake2bCompress h (repeat 0 128) t true
  | [last] =>
      blake2bCompress h (last ++ repeat 0 (128 - length last))
                      (t + Z.of_nat (length last)) true
  | block :: rest =>
      blake2bBlocks (blake2bCompress h block (t + 128) false) (t + 128) rest
  end.

Definition blake2b (outlen : nat) (msg : bytes) : bytes :=
  let h0 := <[0%nat := Z.lxor (word BLAKE2B_IV 0)
                              (Z.lxor 0x01010000 (Z.of_nat outlen))]> BLAKE2B_IV in
  let h := blake2bBlocks h0 0 (chunks 128 msg) in
  take outlen (flat_map le64 h).

End Blake2b.
Import Blake2b.

Module Argon2.

(** Argon2 (RFC 9106), version 0x13: the [argon2id] of @noble/hashes.
    A block is 1024 bytes, held as 128 words of 64 bits. *)
Definition Block := list Z.

Definition zeroBlock : Block := repeat 0 128.

Definition xorBlock (x y : Block) : Block := zip_with Z.lxor x y.

Definition blockOfBytes (b : bytes) : Block := map fromBytesLE (chunks 8 b).
Definition bytesOfBlock (b : Block) : bytes := flat_map le64 b.

(** The variable-length hash H' (section 3.3). *)
Fixpoint hashChain (n : nat) (v : bytes) : list bytes :=
  match n with
  | O => []
  | S n' => let v' := blake2b 64 v in v' :: hashChain n' v'
  end.

Definition Hprime (T : nat) (input : bytes) : bytes :=
  let A := le32 (Z.of_nat T) ++ input in
  if (T <=? 64)%nat then blake2b T A
  else
    let r := ((T + 31) / 32 - 2)%nat in
    let v1 := blake2b 64 A in
    let vs := v1 :: hashChain (r - 1) v1 in
    let vr := List.last vs v1 in
    flat_map (take 32) vs ++ blake2b (T - 32 * r) vr.

(** The permutation P on sixteen words, with the multiplying mix GB. *)
Definition mulMix (a b : Z) : Z :=
  wrap64 (a + b + 2 * Z.land a 0xFFFFFFFF * Z.land b 0xFFFFFFFF).

Definition GB (a b c d : nat) (v : list Z) : list Z :=
  let v := <[a := mulMix (word v a) (word v b)]> v in
  let v := <[d := rotr64 (Z.lxor (word v d) (word v a)) 32]> v in
  let v := <[c := mulMix (word v c) (word v d)]> v in
  let v := <[b := rotr64 (Z.lxor (word v b) (word v c)) 24]> v in
  let v := <[a := mulMix (word v a) (word v b)]> v in
  let v := <[d := rotr64 (Z.lxor (word v d) (word v a)) 16]> v in
  let v := <[c := mulMix (word v c) (word v d)]> v in
  <[b := rotr64 (Z.lxor (word v b) (word v c)) 63]> v.

Definition permutationP (v : list Z) : list Z :=
  let v := GB 0 4 8 12 v in
  let v := GB 1 5 9 13 v in
  let v := GB 2 6 10 14 v in
  let v := GB 3 7 11 15 v in
  let v := GB 0 5 10 15 v in
  let v := GB 1 6 11 12 v in
  let v := GB 2 7 8 13 v in
  GB 3 4 9 14 v.

(** [P] applied to the sixteen words of [R] at the positions [idx]. *)
Definition applyP (idx : list nat) (R : Block) : Block :=
  let out := permutationP (map (word R) idx) in
  fold_left (fun R' '(i, w) => <[i := w]> R') (combine idx out) R.

Definition rowIndices (i : nat) : list nat := map (fun k => (16 * i + k)%nat) (seq 0 16).
Definition columnIndices (i : nat) : list nat :=
  flat_map (fun k => [(2 * i + 16 * k)%nat; (2 * i + 16 * k + 1)%nat]) (seq 0 8).

(** The compression function G (section 3.5). *)
Definition compressG (X Y : Block) : Block :=
  let R := xorBlock X Y in
  let Q := fold_left (fun b i => applyP (rowIndices i) b) (seq 0 8) R in
  let Z := fold_left (fun b i => applyP (columnIndices i) b) (seq 0 8) Q in
  xorBlock Z R.

Inductive Argon2Type : Type := Argon2d | Argon2i | Argon2id.

Definition typeCode (y : Argon2Type) : Z :=
  match y with Argon2d => 0 | Argon2i => 1 | Argon2id => 2 end.

Record Instance : Type := mkInstance
  { passes : nat;        (* t *)
    lanes : nat;         (* p *)
    laneLength : nat;    (* q = m' / p *)
    segmentLength : nat; (* q / 4 *)
    kind : Argon2Type }.

Definition memoryBlocks (inst : Instance) : nat := (lanes inst * laneLength inst)%nat.

Definition blockAt (memory : list Block) (i : nat) : Block := nth i memory zeroBlock.

(** The address block for data-independent indexing (section 3.4.1.2). *)
Definition addressBlock (inst : Instance) (pass lane slice : nat) (counter : Z)
  : Block :=
  let input :=
    [Z.of_nat pass; Z.of_nat lane; Z.of_nat slice;
     Z.of_nat (memoryBlocks inst); Z.of_nat (passes inst);
     typeCode (kind inst); counter] ++ repeat 0 121 in
  compressG zeroBlock (compressG zeroBlock input).

Definition dataIndependent (inst : Instance) (pass slice : nat) : bool :=
  match kind inst with
  | Argon2i => true
  | Argon2d => false
  | Argon2id => (pass =? 0)%nat && (slice <? 2)%nat
  end.

(** The position in its lane of the block that [J1] selects
    (section 3.4.2). *)
Definition indexAlpha (inst : Instance) (pass slice index : nat) (J1 : Z)
           (sameLane : bool) : nat :=
  let SL := Z.of_nat (segmentLength inst) in
  let q := Z.of_nat (laneLength inst) in
  let referenceAreaSize :=
    if (pass =? 0)%nat then
      if (slice =? 0)%nat then Z.of_nat index - 1
      else if sameLane then Z.of_nat slice * SL + Z.of_nat index - 1
           else Z.of_nat slice * SL + (if (index =? 0)%nat then -1 else 0)
    else
      if sameLane then q - SL + Z.of_nat index - 1
      else q - SL + (if (index =? 0)%nat then -1 else 0) in
  let x := Z.shiftr (J1 * J1) 32 in
  let relativePosition :=
    referenceAreaSize - 1 - Z.shiftr (referenceAreaSize * x) 32 in
  let startPosition :=
    if (pass =? 0)%nat then 0
    else if (slice =? 3)%nat then 0 else (Z.of_nat slice + 1) * SL in
  Z.to_nat ((startPosition + relativePosition) mod q).

(** One block of a segment. *)
Definition fillBlock (inst : Instance) (pass slice lane : nat)
           (memory : list Block) (index : nat) : list Block :=
  let q := laneLength inst in
  let posInLane := (slice * segmentLength inst + index)%nat in
  let currOffset := (lane * q + posInLane)%nat in
  let prevOffset :=
    if (posInLane =? 0)%nat then (currOffset + q - 1)%nat else (currOffset - 1)%nat in
  let pseudoRand :=
    if dataIndependent inst pass slice
    then word (addressBlock inst pass lane slice (Z.of_nat (index / 128) + 1))
              (index mod 128)
    else word (blockAt memory prevOffset) 0 in
  let J1 := pseudoRand mod 2 ^ 32 in
  let J2 := Z.shiftr pseudoRand 32 in
  let refLane :=
    if (pass =? 0)%nat && (slice =? 0)%nat then lane
    else Z.to_nat (J2 mod Z.of_nat (lanes inst)) in
  let refIndex := indexAlpha inst pass slice index J1 (refLane =? lane)%nat in
  let refBlock := blockAt memory (q * refLane + refIndex) in
  let new := compressG (blockAt memory prevOffset) refBlock in
  let new := if (pass =? 0)%nat then new
             else xorBlock new (blockAt memory currOffset) in
  <[currOffset := new]> memory.

Definition fillSegment (inst : Instance) (pass slice : nat)
           (memory : list Block) (lane : nat) : list Block :=
  let startingIndex :=
    if (pass =? 0)%nat && (slice =? 0)%nat then 2%nat else 0%nat in
  fold_left (fillBlock inst pass slice lane)
            (seq startingIndex (segmentLength inst - startingIndex)) memory.

Definition fillSlice (inst : Instance) (pass : nat) (memory : list Block)
           (slice : nat) : list Block :=
  fold_left (fillSegment inst pass slice) (seq 0 (lanes inst)) memory.

Definition fillPass (inst : Instance) (memory : list Block) (pass : nat)
  : list Block :=
  fold_left (fillSlice inst pass) (seq 0 4) memory.

(** Argon2 with password [P], salt [S], secret [K] and associated data [X];
    [t] passes, [m] KiB of memory, [p] lanes, a tag of [T] bytes. *)
Definition argon2 (y : Argon2Type) (P S K X : bytes) (t m p T : Z) : bytes :=
  let len (b : bytes) := le32 (Z.of_nat (length b)) in
  let H0 := blake2b 64
              (le32 p ++ le32 T ++ le32 m ++ le32 t ++ le32 0x13
               ++ le32 (typeCode y)
               ++ len P ++ P ++ len S ++ S ++ len K ++ K ++ len X ++ X) in
  let m' := 4 * p * (m / (4 * p)) in
  let q := Z.to_nat (m' / p) in
  let lanes := Z.to_nat p in
  let inst := mkInstance (Z.to_nat t) lanes q (q / 4) y in
  let first (lane : nat) (j : Z) : Block :=
    blockOfBytes (Hprime 1024 (H0 ++ le32 j ++ le32 (Z.of_nat lane))) in
  let memory0 :=
    fold_left (fun mem lane =>
                 <[(lane * q + 1)%nat := first lane 1]>
                   (<[(lane * q)%nat := first lane 0]> mem))
              (seq 0 lanes) (repeat zeroBlock (Z.to_nat m')) in
  let memory := fold_left (fillPass inst) (seq 0 (Z.to_nat t)) memory0 in
  let C := fold_left (fun acc lane => xorBlock acc (blockAt memory (lane * q + q - 1)))
                     (seq 0 lanes) zeroBlock in
  Hprime (Z.to_nat T) (bytesOfBlock C).

(** The errors of @noble/hashes. *)
Inductive HashError : Type :=
| Uint8ArrayExpected   (* "Uint8Array expected" *)
| SaltTooShort
| InvalidOptions.

(** A password or a salt is a byte array, or a string that is taken as its
    UTF-8 bytes; anything else is refused. *)
Definition kdfInputToBytes (data : JsValue) : result HashError bytes :=
  match data with
  | JsString s => Ok (utf8ToBytes s)
  | JsUint8Array b => Ok b
  | _ => Throw Uint8ArrayExpected
  end.

Definition numberField (name : string) (fields : list (string * JsValue))
           (missing : option Z) : option Z :=
  match getField name fields with
  | JsNumber n => Some n
  | JsUndefined => missing
  | _ => None
  end.

Definition bytesField (name : string) (fields : list (string * JsValue))
  : result HashError bytes :=
  match getField name fields with
  | JsUndefined => Ok []
  | v => kdfInputToBytes v
  end.

Definition isU32 (n : Z) : bool := (0 <=? n) && (n <? 2 ^ 32).

(** [argon2id(password, salt, opts)] of @noble/hashes: the password and
    the salt come first, then the options object with the costs [t], [m]
    and [p], the tag length [dkLen] (32 when absent) and, optionally, a
    secret [key] and [personalization] data.  The parameter ranges are
    those of RFC 9106. *)
Definition argon2id (password salt opts : JsValue) : result HashError bytes :=
  match kdfInputToBytes password with
  | Throw e => Throw e
  | Ok passwordBytes =>
      match kdfInputToBytes salt with
      | Throw e => Throw e
      | Ok saltBytes =>
          if (length saltBytes <? 8)%nat then Throw SaltTooShort
          else
            match opts with
            | JsObject fields =>
                match numberField "t" fields None, numberField "m" fields None,
                      numberField "p" fields None, numberField "dkLen" fields (Some 32),
                      bytesField "key" fields, bytesField "personalization" fields with
                | Some t, Some m, Some p, Some dkLen, Ok secret, Ok data =>
                    if isU32 t && isU32 m && isU32 p && isU32 dkLen
                       && (1 <=? t) && (1 <=? p) && (p <? 2 ^ 24)
                       && (4 <=? dkLen) && (8 * p <=? m)
                    then Ok (argon2 Argon2id passwordBytes saltBytes secret data
                                    t m p dkLen)
                    else Throw InvalidOptions
                | _, _, _, _, _, _ => Throw InvalidOptions
                end
            | _ => Throw InvalidOptions
            end
      end
  end.

End Argon2.
Import Argon2.

Module Encryption.

(** [String.prototype.trim]: white space and line terminators are removed
    from both ends. *)
Definition isWhiteSpace (c : Z) : bool :=
  ((0x09 <=? c) && (c <=? 0x0D)) || (c =? 0x20) || (c =? 0xA0)
  || (c =? 0x1680) || ((0x2000 <=? c) && (c <=? 0x200A))
  || (c =? 0x2028) || (c =? 0x2029) || (c =? 0x202F) || (c =? 0x205F)
  || (c =? 0x3000) || (c =? 0xFEFF).

Fixpoint trimStart (s : jsstring) : jsstring :=
  match s with
  | [] => []
  | c :: rest => if isWhiteSpace c then trimStart rest else s
  end.

Definition trimEnd (s : jsstring) : jsstring := rev (trimStart (rev s)).

Definition trim (s : jsstring) : jsstring := trimEnd (trimStart s).

Definition asciiLower (c : Z) : Z :=
  if (0x41 <=? c) && (c <=? 0x5A) then c + 0x20 else c.

Definition isAscii (c : Z) : bool := (0 <=? c) && (c <? 0x80).

(** The store of the module and of the platform under it. *)
Record World : Type := mkWorld
  { heap : list bytes;        (* the Uint8Arrays that hold session keys *)
    sessionKey : option nat;  (* let sessionKey: Uint8Array | null *)
    entropy : nat -> Z;       (* what crypto.getRandomValues delivers *)
    drawn : nat               (* how many random bytes were delivered *) }.

Inductive Exception : Type :=
| SessionNotInitialized          (* Error("Encryption session is not initialized") *)
| KdfFailure (e : HashError)     (* an Error thrown by argon2id *)
| CipherFailure (e : CipherError). (* an Error thrown by the cipher *)

(** A call runs in a world and ends with a value or a thrown exception. *)
Definition M (A : Type) : Type := World -> result Exception A * World.

Definition ret {A} (a : A) : M A := fun w => (Ok a, w).

Definition throw {A} (e : Exception) : M A := fun w => (Throw e, w).

Definition bind {A B} (m : M A) (k : A -> M B) : M B :=
  fun w =>
    match m w with
    | (Ok a, w') => k a w'
    | (Throw e, w') => (Throw e, w')
    end.

Notation "'do' x <- m ; k" := (bind m (fun x => k))
  (at level 10, x name, m at level 100, k at level 200).

Definition fromKdf {A} (r : result HashError A) : M A :=
  match r with
  | Ok a => ret a
  | Throw e => throw (KdfFailure e)
  end.

Definition fromCipher {A} (r : result CipherError A) : M A :=
  match r with
  | Ok a => ret a
  | Throw e => throw (CipherFailure e)
  end.

(** [new Uint8Array]: a fresh array in the heap. *)
Definition alloc (data : bytes) : M nat :=
  fun w => (Ok (length (heap w)),
            mkWorld (heap w ++ [data]) (sessionKey w) (entropy w) (drawn w)).

Definition readArray (ref : nat) : M bytes :=
  fun w => (Ok (default [] (heap w !! ref)), w).

(** [array.fill(0)] *)
Definition fillZero (ref : nat) : M unit :=
  fun w => (Ok tt,
            mkWorld (alter (fun a => repeat 0 (length a)) ref (heap w))
                    (sessionKey w) (entropy w) (drawn w)).

Definition getSessionKey : M (option nat) := fun w => (Ok (sessionKey w), w).

Definition setSessionKey (k : option nat) : M unit :=
  fun w => (Ok tt, mkWorld (heap w) k (entropy w) (drawn w)).

(** [randomBytes(n)]: the next [n] bytes of the random source. *)
Definition randomBytes (n : nat) : M bytes :=
  fun w => (Ok (map (fun i => entropy w (drawn w + i)%nat mod 256) (seq 0 n)),
            mkWorld (heap w) (sessionKey w) (entropy w) (drawn w + n)).

(** src/services/encryption.ts *)
Definition ARGON2_OPTIONS : list (string * JsValue) :=
  [field "t" (JsNumber 2); field "m" (JsNumber 65536); field "p" (JsNumber 4);
   field "dkLen" (JsNumber 32)].

Definition base64Encode (data : bytes) : jsstring := fromByteArray data.
Definition base64Decode (data : jsstring) : bytes := base64ToBytes data.

Record EncryptedField : Type := mkEncryptedField
  { ciphertext : jsstring; nonce : jsstring }.

Section Platform.

(** [String.prototype.toLowerCase] on a string with a code unit outside
    ASCII follows the Unicode case tables, which are a parameter here; on
    an ASCII string it maps A-Z to a-z. *)
Variable unicodeLowerCase : jsstring -> jsstring.

Definition toLowerCase (s : jsstring) : jsstring :=
  if forallb isAscii s then map asciiLower s else unicodeLowerCase s.

Definition mixedSalt (username userSaltBase64 : jsstring) : bytes :=
  let saltBytes := base64Decode userSaltBase64 in
  let usernameBytes := utf8ToBytes (toLowerCase (trim username)) in
  sha256 (saltBytes ++ utf8ToBytes (js ":") ++ usernameBytes).

(** Line 33 calls [argon2id] with two arguments: the password bytes, and
    an object that holds the costs together with the salt. *)
Definition initializeEncryptionSession
           (username masterPassword userSaltBase64 : jsstring) : M unit :=
  do derived <- fromKdf
                  (argon2id (JsUint8Array (utf8ToBytes masterPassword))
                            (JsObject (ARGON2_OPTIONS
                                       ++ [field "salt"
                                             (JsUint8Array
                                                (mixedSalt username userSaltBase64))]))
                            JsUndefined) ;
  do key <- alloc derived ;
  setSessionKey (Some key).

End Platform.

Definition clearEncryptionSession : M unit :=
  do k <- getSessionKey ;
  do _u <- match k with
           | Some key => fillZero key
           | None => ret tt
           end ;
  setSessionKey None.

Definition requireSessionKey : M nat :=
  do k <- getSessionKey ;
  match k with
  | None => throw SessionNotInitialized
  | Some key => ret key
  end.

(** Lines 56 and 67 make the cipher object from the key alone; the calls
    of its methods then pass the nonce where the data goes and the data
    where the output array goes (a third argument is not looked at). *)
Definition encryptSecret (plaintext : jsstring) : M EncryptedField :=
  do key <- requireSessionKey ;
  do nonce <- randomBytes 12 ;
  do keyBytes <- readArray key ;
  do cipher <- fromCipher (chacha20poly1305 (JsUint8Array keyBytes)
                                            JsUndefined JsUndefined) ;
  do ciphertext <- fromCipher (encrypt cipher (JsUint8Array nonce)
                                       (JsUint8Array (utf8ToBytes plaintext))) ;
  ret {| ciphertext := base64Encode ciphertext; nonce := base64Encode nonce |}.

Definition decryptSecret (ciphertextBase64 nonceBase64 : jsstring) : M jsstring :=
  do key <- requireSessionKey ;
  do keyBytes <- readArray key ;
  do cipher <- fromCipher (chacha20poly1305 (JsUint8Array keyBytes)
                                            JsUndefined JsUndefined) ;
  do plaintext <- fromCipher (decrypt cipher (JsUint8Array (base64Decode nonceBase64))
                                      (JsUint8Array (base64Decode ciphertextBase64))) ;
  ret (utf8Slice plaintext).

Definition isEncryptionReady : M bool :=
  do k <- getSessionKey ;
  ret (match k with Some _ => true | None => false end).

(** The worlds the module can be in: it starts with no key and no array,
    and changes only through its exported functions. *)
Definition initialWorld (e : nat -> Z) : World := mkWorld [] None e 0.

Inductive reachable (lower : jsstring -> jsstring) : World -> Prop :=
| reach_start e : reachable lower (initialWorld e)
| reach_initialize w u pw s :
    reachable lower w ->
    reachable lower (snd (initializeEncryptionSession lower u pw s w))
| reach_clear w :
    reachable lower w -> reachable lower (snd (clearEncryptionSession w))
| reach_encrypt w x :
    reachable lower w -> reachable lower (snd (encryptSecret x w))
| reach_decrypt w c n :
    reachable lower w -> reachable lower (snd (decryptSecret c n w))
| reach_ready w :
    reachable lower w -> reachable lower (snd (isEncryptionReady w)).

(** The world after [n] random bytes were drawn. *)
Definition afterDraw (w : World) (n : nat) : World :=
  mkWorld (heap w) (sessionKey w) (entropy w) (drawn w + n).


(** Calling [initializeEncryptionSession] [n] times with the same
    arguments. *)
Definition reinitialize (lower : jsstring -> jsstring) (u pw s : jsstring)
           (n : nat) (w : World) : World :=
  Nat.iter n (fun w => snd (initializeEncryptionSession lower u pw s w)) w.

(** Sample inputs: a lower-casing for ASCII-only runs, a random source, a
    16-byte salt, and the world after a first login. *)
Definition asciiOnly (s : jsstring) : jsstring := s.
Definition sampleEntropy (i : nat) : Z := Z.of_nat (7 * i + 3).
Definition sampleSalt : jsstring := js "AAECAwQFBgcICQoLDA0ODw==".
Definition bobWorld : World :=
  snd (initializeEncryptionSession asciiOnly (js "bob") (js "Tr0ub4dor&3")
         sampleSalt (initialWorld sampleEntropy)).

End Encryption.
Import Encryption.

Module Backend.

(** backend/src/utils/crypto.ts *)

(** [crypto.createHash('sha256').update(s).digest('hex')]: the SHA-256 of
    the UTF-8 bytes of [s], in lower-case hexadecimal. *)
Definition sha256Hex (s : jsstring) : jsstring := toHex (sha256 (utf8ToBytes s)).

(** [a === b] on strings. *)
Definition strictEquals (a b : jsstring) : bool := bool_decide (a = b).

Definition hashPasswordSHA256 (password : jsstring) : jsstring :=
  let hash := sha256Hex password in
  js "sha256$" ++ hash.

Definition verifyPasswordSHA256 (password hash : jsstring) : bool :=
  let passwordHash := sha256Hex password in
  strictEquals hash (js "sha256$" ++ passwordHash) || strictEquals hash passwordHash.

End Backend.
Import Backend.

(** ** Part II: facts *)

Module Utf8Facts.

(** Bit fields as arithmetic. *)
Lemma lor_disjoint hi lo k :
  0 <= k -> 0 <= lo < 2 ^ k -> Z.lor (hi * 2 ^ k) lo = hi * 2 ^ k + lo.
Proof.
  intros Hk Hlo. symmetry. apply Z.add_nocarry_lor.
  apply Z.bits_inj'. intros n Hn.
  rewrite Z.land_spec, Z.bits_0.
  destruct (Z_lt_le_dec n k) as [Hlt | Hge].
  - rewrite Z.mul_pow2_bits_low by lia. reflexivity.
  - assert (Z.testbit lo n = false) as ->; [| apply andb_false_r].
    destruct (Z.eq_dec lo 0) as [-> | Hnz]; [apply Z.bits_0 |].
    apply Z.bits_above_log2; [lia |].
    apply Z.log2_lt_pow2; [lia |].
    apply Z.lt_le_trans with (2 ^ k); [lia |].
    apply Z.pow_le_mono_r; lia.
Qed.

Lemma lor_const_hi x c k :
  0 <= k -> 0 <= x < 2 ^ k -> c mod 2 ^ k = 0 -> Z.lor x c = c + x.
Proof.
  intros Hk Hx Hc.
  assert (c = (c / 2 ^ k) * 2 ^ k) as Hdiv.
  { pose proof (Z.div_mod c (2 ^ k)). lia. }
  rewrite Z.lor_comm, Hdiv at 1. rewrite lor_disjoint by lia. lia.
Qed.

Lemma land_low_bits x k : 0 <= k -> Z.land x (2 ^ k - 1) = x mod 2 ^ k.
Proof.
  intros Hk. replace (2 ^ k - 1) with (Z.ones k).
  - apply Z.land_ones; lia.
  - rewrite Z.ones_equiv. lia.
Qed.

Lemma lor_fields3 a b c :
  0 <= b < 64 -> 0 <= c < 64 ->
  Z.lor (Z.lor (Z.shiftl a 12) (Z.shiftl b 6)) c = a * 4096 + b * 64 + c.
Proof.
  intros Hb Hc. rewrite !Z.shiftl_mul_pow2 by lia.
  rewrite (lor_disjoint a (b * 2 ^ 6) 12) by lia.
  replace (a * 2 ^ 12 + b * 2 ^ 6) with ((a * 64 + b) * 2 ^ 6) by lia.
  rewrite lor_disjoint by lia. lia.
Qed.

Lemma lor_fields4 a b c d :
  0 <= b < 64 -> 0 <= c < 64 -> 0 <= d < 64 ->
  Z.lor (Z.lor (Z.lor (Z.shiftl a 18) (Z.shiftl b 12)) (Z.shiftl c 6)) d
  = a * 262144 + b * 4096 + c * 64 + d.
Proof.
  intros Hb Hc Hd. rewrite !Z.shiftl_mul_pow2 by lia.
  rewrite (lor_disjoint a (b * 2 ^ 12) 18) by lia.
  replace (a * 2 ^ 18 + b * 2 ^ 12) with ((a * 64 + b) * 2 ^ 12) by lia.
  rewrite (lor_disjoint (a * 64 + b) (c * 2 ^ 6) 12) by lia.
  replace ((a * 64 + b) * 2 ^ 12 + c * 2 ^ 6)
    with (((a * 64 + b) * 64 + c) * 2 ^ 6) by lia.
  rewrite lor_disjoint by lia. lia.
Qed.

Lemma lor_fields2 a b :
  0 <= b < 64 -> Z.lor (Z.shiftl a 6) b = a * 64 + b.
Proof.
  intros Hb. rewrite Z.shiftl_mul_pow2 by lia.
  rewrite lor_disjoint by lia. lia.
Qed.

(** A leading byte [tag + x] and a continuation byte [0x80 + x] seen by the
    decoder's masks. *)
Lemma cont_byte x :
  0 <= x < 64 ->
  Z.lor x 0x80 = 128 + x /\ isContinuation (128 + x) = true
  /\ Z.land (128 + x) 0x3F = x.
Proof.
  intros Hx.
  assert (Z.lor x 0x80 = 128 + x) as E by (apply (lor_const_hi x 128 6); lia || reflexivity).
  split; [exact E |]. unfold isContinuation.
  change 0x3F with (2 ^ 6 - 1). rewrite land_low_bits by lia.
  split.
  - apply Z.eqb_eq.
    replace (128 + x) with (Z.lor (2 * 2 ^ 6) x) by (rewrite lor_disjoint; lia).
    rewrite Z.land_lor_distr_l.
    replace (Z.land x 192) with 0.
    + reflexivity.
    + symmetry. apply Z.bits_inj'. intros n Hn. rewrite Z.land_spec, Z.bits_0.
      destruct (Z_lt_le_dec n 6).
      * replace 192 with (3 * 2 ^ 6) by reflexivity.
        rewrite Z.mul_pow2_bits_low by lia. apply andb_false_r.
      * destruct (Z.eq_dec x 0) as [-> | Hnz]; [rewrite Z.bits_0; reflexivity |].
        rewrite (Z.bits_above_log2 x n); [reflexivity | lia |].
        apply Z.log2_lt_pow2; [lia |].
        apply Z.lt_le_trans with (2 ^ 6); [lia | apply Z.pow_le_mono_r; lia].
  - rewrite Z.add_mod by lia. change (128 mod 2 ^ 6) with 0.
    rewrite Z.add_0_l, Z.mod_mod by lia. apply Z.mod_small. lia.
Qed.

Ltac dlia := Z.div_mod_to_equations; lia.

Ltac zcmp :=
  repeat match goal with
    | |- context [?x <? ?y] => destruct (Z.ltb_spec x y); try lia
    | |- context [?x <=? ?y] => destruct (Z.leb_spec x y); try lia
    end.

Lemma lead_byte tag k x :
  0 <= k -> 0 <= x < 2 ^ k -> tag mod 2 ^ k = 0 ->
  Z.lor x tag = tag + x /\ Z.land (tag + x) (2 ^ k - 1) = x.
Proof.
  intros Hk Hx Ht. split; [apply (lor_const_hi x tag k); assumption |].
  rewrite land_low_bits by lia.
  rewrite Z.add_mod, Ht, Z.add_0_l, Z.mod_mod by lia.
  apply Z.mod_small; lia.
Qed.

(** One step of the decoder, by the length the leading byte announces. *)
Lemma utf8Slice_1 b1 t cp :
  bytesPerSequence b1 = 1%nat -> decode1 b1 = Some cp ->
  utf8Slice (b1 :: t) = pushCodePoint cp ++ utf8Slice t.
Proof. intros H1 H2. cbn [utf8Slice]. rewrite H1, H2. reflexivity. Qed.

Lemma utf8Slice_2 b1 b2 t cp :
  bytesPerSequence b1 = 2%nat -> decode2 b1 b2 = Some cp ->
  utf8Slice (b1 :: b2 :: t) = pushCodePoint cp ++ utf8Slice t.
Proof. intros H1 H2. cbn [utf8Slice]. rewrite H1, H2. reflexivity. Qed.

Lemma utf8Slice_3 b1 b2 b3 t cp :
  bytesPerSequence b1 = 3%nat -> decode3 b1 b2 b3 = Some cp ->
  utf8Slice (b1 :: b2 :: b3 :: t) = pushCodePoint cp ++ utf8Slice t.
Proof. intros H1 H2. cbn [utf8Slice]. rewrite H1, H2. reflexivity. Qed.

Lemma utf8Slice_4 b1 b2 b3 b4 t cp :
  bytesPerSequence b1 = 4%nat -> decode4 b1 b2 b3 b4 = Some cp ->
  utf8Slice (b1 :: b2 :: b3 :: b4 :: t) = pushCodePoint cp ++ utf8Slice t.
Proof. intros H1 H2. cbn [utf8Slice]. rewrite H1, H2. reflexivity. Qed.

(** The encoder's bytes, written with the 6-bit digits of the code point. *)
Lemma encodeCodePoint_1 c : 0 <= c < 0x80 -> encodeCodePoint c = [c].
Proof. intros H. unfold encodeCodePoint. zcmp. reflexivity. Qed.

Lemma encodeCodePoint_2 c :
  0x80 <= c < 0x800 ->
  encodeCodePoint c = [192 + c / 64; 128 + c mod 64].
Proof.
  intros H. unfold encodeCodePoint. zcmp.
  rewrite Z.shiftr_div_pow2 by lia. change (2 ^ 0x6) with 64.
  change 0x3F with (2 ^ 6 - 1). rewrite land_low_bits by lia.
  change (2 ^ 6) with 64.
  rewrite (proj1 (cont_byte (c mod 64) ltac:(dlia))).
  rewrite (proj1 (lead_byte 0xC0 5 (c / 64) ltac:(lia) ltac:(dlia) eq_refl)).
  reflexivity.
Qed.

Lemma encodeCodePoint_3 c :
  0x800 <= c < 0x10000 ->
  encodeCodePoint c =
    [224 + c / 4096; 128 + (c / 64) mod 64; 128 + c mod 64].
Proof.
  intros H. unfold encodeCodePoint. zcmp.
  rewrite !Z.shiftr_div_pow2 by lia.
  change (2 ^ 0x6) with 64. change (2 ^ 0xC) with 4096.
  change 0x3F with (2 ^ 6 - 1). rewrite !land_low_bits by lia.
  change (2 ^ 6) with 64.
  rewrite (proj1 (cont_byte (c mod 64) ltac:(dlia))).
  rewrite (proj1 (cont_byte ((c / 64) mod 64) ltac:(dlia))).
  rewrite (proj1 (lead_byte 0xE0 4 (c / 4096) ltac:(lia) ltac:(dlia) eq_refl)).
  reflexivity.
Qed.

Lemma encodeCodePoint_4 c :
  0x10000 <= c < 0x110000 ->
  encodeCodePoint c =
    [240 + c / 262144; 128 + (c / 4096) mod 64;
     128 + (c / 64) mod 64; 128 + c mod 64].
Proof.
  intros H. unfold encodeCodePoint. zcmp.
  rewrite !Z.shiftr_div_pow2 by lia.
  change (2 ^ 0x6) with 64. change (2 ^ 0xC) with 4096.
  change (2 ^ 0x12) with 262144.
  change 0x3F with (2 ^ 6 - 1). rewrite !land_low_bits by lia.
  change (2 ^ 6) with 64.
  rewrite (proj1 (cont_byte (c mod 64) ltac:(dlia))).
  rewrite (proj1 (cont_byte ((c / 64) mod 64) ltac:(dlia))).
  rewrite (proj1 (cont_byte ((c / 4096) mod 64) ltac:(dlia))).
  rewrite (proj1 (lead_byte 0xF0 3 (c / 262144) ltac:(lia) ltac:(dlia) eq_refl)).
  reflexivity.
Qed.

Lemma bytesPerSequence_cases b :
  (b <= 0xBF -> bytesPerSequence b = 1%nat)
  /\ (0xBF < b <= 0xDF -> bytesPerSequence b = 2%nat)
  /\ (0xDF < b <= 0xEF -> bytesPerSequence b = 3%nat)
  /\ (0xEF < b -> bytesPerSequence b = 4%nat).
Proof. unfold bytesPerSequence. repeat split; intros; zcmp; reflexivity. Qed.

Lemma decode2_encoded c :
  0x80 <= c < 0x800 -> decode2 (192 + c / 64) (128 + c mod 64) = Some c.
Proof.
  intros H. unfold decode2.
  destruct (cont_byte (c mod 64) ltac:(dlia)) as (_ & -> & ->).
  change 0x1F with (2 ^ 5 - 1).
  rewrite (proj2 (lead_byte 0xC0 5 (c / 64) ltac:(lia) ltac:(dlia) eq_refl)).
  rewrite lor_fields2 by dlia.
  replace (c / 64 * 64 + c mod 64) with c by dlia.
  zcmp. reflexivity.
Qed.

Lemma decode3_encoded c :
  0x800 <= c < 0x10000 -> c < 0xD800 \/ 0xDFFF < c ->
  decode3 (224 + c / 4096) (128 + (c / 64) mod 64) (128 + c mod 64) = Some c.
Proof.
  intros H Hs. unfold decode3.
  destruct (cont_byte (c mod 64) ltac:(dlia)) as (_ & -> & ->).
  destruct (cont_byte ((c / 64) mod 64) ltac:(dlia)) as (_ & -> & ->).
  change 0xF with (2 ^ 4 - 1).
  rewrite (proj2 (lead_byte 0xE0 4 (c / 4096) ltac:(lia) ltac:(dlia) eq_refl)).
  rewrite lor_fields3 by dlia.
  replace (c / 4096 * 4096 + (c / 64) mod 64 * 64 + c mod 64) with c by dlia.
  cbn [andb]. zcmp; reflexivity.
Qed.

Lemma decode4_encoded c :
  0x10000 <= c < 0x110000 ->
  decode4 (240 + c / 262144) (128 + (c / 4096) mod 64)
          (128 + (c / 64) mod 64) (128 + c mod 64) = Some c.
Proof.
  intros H. unfold decode4.
  destruct (cont_byte (c mod 64) ltac:(dlia)) as (_ & -> & ->).
  destruct (cont_byte ((c / 64) mod 64) ltac:(dlia)) as (_ & -> & ->).
  destruct (cont_byte ((c / 4096) mod 64) ltac:(dlia)) as (_ & -> & ->).
  change 0xF with (2 ^ 4 - 1).
  assert (Z.land (240 + c / 262144) (2 ^ 4 - 1) = c / 262144) as ->.
  { rewrite land_low_bits by lia. change (2 ^ 4) with 16. dlia. }
  rewrite lor_fields4 by dlia.
  replace (c / 262144 * 262144 + (c / 4096) mod 64 * 4096
           + (c / 64) mod 64 * 64 + c mod 64) with c by dlia.
  cbn [andb]. zcmp. reflexivity.
Qed.

(** Decoding what the encoder wrote for one scalar value. *)
Lemma utf8Slice_encoded_bmp c t :
  0 <= c < 0x10000 -> c < 0xD800 \/ 0xDFFF < c ->
  utf8Slice (encodeCodePoint c ++ t) = c :: utf8Slice t.
Proof.
  intros H Hs.
  assert (pushCodePoint c = [c]) as Hpush.
  { unfold pushCodePoint. zcmp. reflexivity. }
  destruct (Z_lt_le_dec c 0x80); [| destruct (Z_lt_le_dec c 0x800)].
  - rewrite encodeCodePoint_1 by lia. cbn [app].
    rewrite (utf8Slice_1 c t c), Hpush; [reflexivity | |].
    + apply bytesPerSequence_cases. lia.
    + unfold decode1. zcmp. reflexivity.
  - rewrite encodeCodePoint_2 by lia. cbn [app].
    rewrite (utf8Slice_2 _ _ t c), Hpush; [reflexivity | |].
    + apply bytesPerSequence_cases. dlia.
    + apply decode2_encoded. lia.
  - rewrite encodeCodePoint_3 by lia. cbn [app].
    rewrite (utf8Slice_3 _ _ _ t c), Hpush; [reflexivity | |].
    + apply bytesPerSequence_cases. dlia.
    + apply decode3_encoded; lia.
Qed.

Lemma combineSurrogates_value hi lo :
  0xD800 <= hi < 0xDC00 -> 0xDC00 <= lo < 0xE000 ->
  combineSurrogates hi lo = (hi - 0xD800) * 1024 + (lo - 0xDC00) + 0x10000.
Proof.
  intros Hh Hl. unfold combineSurrogates.
  rewrite Z.shiftl_mul_pow2 by lia. rewrite lor_disjoint by lia. reflexivity.
Qed.

Lemma pushCodePoint_pair hi lo :
  0xD800 <= hi < 0xDC00 -> 0xDC00 <= lo < 0xE000 ->
  pushCodePoint (combineSurrogates hi lo) = [hi; lo].
Proof.
  intros Hh Hl. rewrite combineSurrogates_value by assumption.
  unfold pushCodePoint. zcmp.
  rewrite Z.shiftr_div_pow2 by lia.
  change 0x3FF with (2 ^ 10 - 1). rewrite !land_low_bits by lia.
  change (2 ^ 10) with 1024.
  rewrite (lor_const_hi _ 0xD800 10) by (try reflexivity; dlia).
  rewrite Z.lor_comm, (lor_const_hi _ 0xDC00 10) by (try reflexivity; dlia).
  f_equal; [| f_equal]; dlia.
Qed.

Lemma utf8Slice_encoded_pair hi lo t :
  0xD800 <= hi < 0xDC00 -> 0xDC00 <= lo < 0xE000 ->
  utf8Slice (encodeCodePoint (combineSurrogates hi lo) ++ t)
  = hi :: lo :: utf8Slice t.
Proof.
  intros Hh Hl.
  pose proof (combineSurrogates_value hi lo Hh Hl) as Hv.
  rewrite encodeCodePoint_4 by lia. cbn [app].
  rewrite (utf8Slice_4 _ _ _ _ t (combineSurrogates hi lo)).
  - rewrite pushCodePoint_pair by assumption. reflexivity.
  - apply bytesPerSequence_cases. dlia.
  - apply decode4_encoded. lia.
Qed.

(** After a well-formed string the encoder has no pending surrogate, and
    the decoder reads the string back from the front of the bytes. *)
Lemma utf8_wellFormed_prefix (n : nat) :
  forall s, (length s <= n)%nat -> wellFormed s = true ->
  forall t r,
    utf8ToBytes (s ++ t) = utf8ToBytes s ++ utf8ToBytes t
    /\ utf8Slice (utf8ToBytes s ++ r) = s ++ utf8Slice r.
Proof.
  unfold utf8ToBytes.
  induction n as [| n IH]; intros s Hlen Hwf t r.
  - destruct s; [split; reflexivity | cbn in Hlen; lia].
  - destruct s as [| c rest]; [split; reflexivity |].
    cbn [wellFormed] in Hwf. cbn [utf8ToBytes_from app]. unfold isSurrogate.
    cbn [length] in Hlen.
    destruct ((0 <=? c) && (c <? 0xD800) || (0xDFFF <? c) && (c <? 0x10000))
      eqn:Hbmp.
    + assert (0 <= c < 0x10000 /\ (c < 0xD800 \/ 0xDFFF < c)) as [Hr Hs] by lia.
      replace ((0xD7FF <? c) && (c <? 0xE000)) with false by lia.
      destruct (IH rest ltac:(lia) Hwf t r) as [IHe IHd].
      cbn [app]. split.
      * rewrite IHe, app_assoc. reflexivity.
      * rewrite <- app_assoc, utf8Slice_encoded_bmp by assumption.
        rewrite IHd. reflexivity.
    + destruct ((0xD800 <=? c) && (c <? 0xDC00)) eqn:Hhi; [| discriminate].
      destruct rest as [| d rest']; [discriminate |].
      assert (0xD800 <= c < 0xDC00) as Hc by lia.
      assert (0xDC00 <= d < 0xE000 /\ wellFormed rest' = true) as [Hd Hwf'].
      { apply andb_prop in Hwf as [Hwf ?]. split; [lia | assumption]. }
      replace ((0xD7FF <? c) && (c <? 0xE000)) with true by lia.
      replace (0xDBFF <? c) with false by lia.
      cbn [utf8ToBytes_from app]. unfold isSurrogate.
      replace ((0xD7FF <? d) && (d <? 0xE000)) with true by lia.
      replace (d <? 0xDC00) with false by lia.
      cbn [length] in Hlen.
      destruct (IH rest' ltac:(lia) Hwf' t r) as [IHe IHd].
      split.
      * rewrite IHe, app_assoc. reflexivity.
      * rewrite <- app_assoc, utf8Slice_encoded_pair by assumption.
        rewrite IHd. reflexivity.
Qed.

(** Round trip of the UTF-8 codec on well-formed strings. *)
Lemma utf8_roundtrip s : wellFormed s = true -> utf8Slice (utf8ToBytes s) = s.
Proof.
  intros Hwf.
  destruct (utf8_wellFormed_prefix (length s) s (Nat.le_refl _) Hwf [] []) as [_ H].
  rewrite !app_nil_r in H. exact H.
Qed.

(** The encoder writes octets. *)
Lemma encodeCodePoint_bytes c : 0 <= c -> Forall is_byte (encodeCodePoint c).
Proof.
  intros H. unfold is_byte.
  destruct (Z_lt_le_dec c 0x80); [| destruct (Z_lt_le_dec c 0x800);
    [| destruct (Z_lt_le_dec c 0x10000); [| destruct (Z_lt_le_dec c 0x110000)]]].
  - rewrite encodeCodePoint_1 by lia. repeat constructor; lia.
  - rewrite encodeCodePoint_2 by lia. repeat constructor; dlia.
  - rewrite encodeCodePoint_3 by lia. repeat constructor; dlia.
  - rewrite encodeCodePoint_4 by lia. repeat constructor; dlia.
  - unfold encodeCodePoint. zcmp. constructor.
Qed.

Lemma replacementBytes_bytes : Forall is_byte replacementBytes.
Proof. unfold replacementBytes, is_byte. repeat constructor; lia. Qed.

Lemma utf8ToBytes_from_bytes s :
  Forall is_code_unit s ->
  forall lead, pendingLead lead -> Forall is_byte (utf8ToBytes_from lead s).
Proof.
  induction 1 as [| c rest Hc Hrest IH]; intros lead Hlead; [constructor |].
  unfold is_code_unit in Hc. cbn [utf8ToBytes_from]. unfold isSurrogate.
  destruct ((0xD7FF <? c) && (c <? 0xE000)) eqn:Hs.
  - destruct lead as [h |]; cbn [pendingLead] in Hlead.
    + destruct (Z.ltb_spec c 0xDC00).
      * apply Forall_app. split; [apply replacementBytes_bytes |].
        apply IH. cbn. lia.
      * apply Forall_app. split; [| apply IH; exact I].
        apply encodeCodePoint_bytes.
        rewrite combineSurrogates_value by lia. lia.
    + destruct (Z.ltb_spec 0xDBFF c).
      * apply Forall_app. split; [apply replacementBytes_bytes | apply IH; exact I].
      * destruct rest; [apply replacementBytes_bytes |].
        apply IH. cbn. lia.
  - apply Forall_app. split.
    + destruct lead; [apply replacementBytes_bytes | constructor].
    + apply Forall_app. split; [apply encodeCodePoint_bytes; lia | apply IH; exact I].
Qed.

Lemma utf8ToBytes_bytes s :
  Forall is_code_unit s -> Forall is_byte (utf8ToBytes s).
Proof. intros H. apply utf8ToBytes_from_bytes; [assumption | exact I]. Qed.

Lemma wellFormed_code_units s : wellFormed s = true -> Forall is_code_unit s.
Proof.
  remember (length s) as n eqn:Hn.
  revert s Hn. induction n as [n IH] using lt_wf_ind. intros s -> Hwf.
  destruct s as [| c rest]; [constructor |].
  cbn [wellFormed] in Hwf.
  destruct ((0 <=? c) && (c <? 0xD800) || (0xDFFF <? c) && (c <? 0x10000))
    eqn:Hbmp.
  - constructor; [unfold is_code_unit; lia |].
    apply (IH (length rest)); [cbn; lia | reflexivity | assumption].
  - destruct ((0xD800 <=? c) && (c <? 0xDC00)) eqn:Hhi; [| discriminate].
    destruct rest as [| d rest']; [discriminate |].
    apply andb_prop in Hwf as [Hd Hwf'].
    constructor; [unfold is_code_unit; lia |].
    constructor; [unfold is_code_unit; lia |].
    apply (IH (length rest')); [cbn; lia | reflexivity | assumption].
Qed.

Example utf8_emoji :
  utf8ToBytes [0xD83D; 0xDE00; 0; 0xE9; 0x20AC]
  = [240; 159; 152; 128; 0; 195; 169; 226; 130; 172].
Proof. reflexivity. Qed.

Example utf8_lone_surrogate :
  utf8Slice (utf8ToBytes [0xD800]) = [0xFFFD].
Proof. reflexivity. Qed.

End Utf8Facts.
Import Utf8Facts.

Module Base64Facts.

(** Checking a property of every number below a bound by computation. *)
Lemma forall_below (n : nat) (P : Z -> bool) :
  forallb P (map Z.of_nat (seq 0 n)) = true ->
  forall x, 0 <= x < Z.of_nat n -> P x = true.
Proof.
  intros H x Hx. rewrite forallb_forall in H. apply H.
  apply in_map_iff. exists (Z.to_nat x). split; [lia |].
  apply in_seq. lia.
Qed.

Lemma lookup_facts i :
  0 <= i < 64 ->
  revLookup (lookup i) = i /\ isBase64Char (lookup i) = true
  /\ (lookup i =? padChar) = false.
Proof.
  intros Hi.
  pose proof (forall_below 64
    (fun i => (revLookup (lookup i) =? i) && isBase64Char (lookup i)
              && negb (lookup i =? padChar)) eq_refl i Hi) as H.
  cbv beta in H. apply andb_prop in H as [H H3]. apply andb_prop in H as [H1 H2].
  repeat split; [lia | assumption | apply negb_true_iff; assumption].
Qed.

Lemma revLookup_lookup i : 0 <= i < 64 -> revLookup (lookup i) = i.
Proof. intros Hi. apply lookup_facts. assumption. Qed.

Lemma list_ind3 (P : list Z -> Prop) :
  P [] -> (forall a, P [a]) -> (forall a b, P [a; b]) ->
  (forall a b c rest, P rest -> P (a :: b :: c :: rest)) ->
  forall l, P l.
Proof.
  intros H0 H1 H2 H3.
  assert (forall l, P l /\ (forall a, P (a :: l)) /\ (forall a b, P (a :: b :: l)))
    as H.
  { induction l as [| c l (IH0 & IH1 & IH2)]; [auto |].
    repeat split; auto. }
  intros l. apply H.
Qed.

(** The sextets of one, two and three bytes. *)
Lemma triplet_value a b c :
  is_byte a -> is_byte b -> is_byte c ->
  Z.land (Z.shiftl a 16) 0xFF0000 + Z.land (Z.shiftl b 8) 0xFF00 + Z.land c 0xFF
  = a * 65536 + b * 256 + c.
Proof.
  unfold is_byte. intros Ha Hb Hc.
  change 0xFF with (2 ^ 8 - 1). rewrite land_low_bits by lia.
  change 0xFF00 with (Z.shiftl (2 ^ 8 - 1) 8).
  change 0xFF0000 with (Z.shiftl (2 ^ 8 - 1) 16).
  rewrite <- !Z.shiftl_land, !land_low_bits by lia.
  rewrite !Z.shiftl_mul_pow2 by lia.
  change (2 ^ 8) with 256. change (2 ^ 16) with 65536. dlia.
Qed.

Lemma toByteArray_quad a b c rest :
  is_byte a -> is_byte b -> is_byte c ->
  toByteArray (tripletToBase64 (a * 65536 + b * 256 + c) ++ rest)
  = a :: b :: c :: toByteArray rest.
Proof.
  unfold is_byte. intros Ha Hb Hc.
  set (n := a * 65536 + b * 256 + c).
  assert (0 <= n < 16777216) as Hn by (unfold n; lia).
  unfold tripletToBase64. cbn [app toByteArray].
  rewrite !Z.shiftr_div_pow2 by lia.
  change 0x3F with (2 ^ 6 - 1). rewrite !land_low_bits by lia.
  change (2 ^ 6) with 64. change (2 ^ 12) with 4096. change (2 ^ 18) with 262144.
  rewrite !revLookup_lookup by dlia.
  rewrite lor_fields4 by dlia.
  replace ((n / 262144) mod 64 * 262144 + (n / 4096) mod 64 * 4096
           + (n / 64) mod 64 * 64 + n mod 64) with n by dlia.
  change 0xFF with (2 ^ 8 - 1). rewrite !land_low_bits by lia.
  f_equal; [| f_equal; [| f_equal]]; unfold n;
    change (2 ^ 8) with 256; change (2 ^ 16) with 65536; dlia.
Qed.

Lemma toByteArray_pair a b :
  is_byte a -> is_byte b ->
  toByteArray [lookup (Z.shiftr (Z.shiftl a 8 + b) 10);
               lookup (Z.land (Z.shiftr (Z.shiftl a 8 + b) 4) 0x3F);
               lookup (Z.land (Z.shiftl (Z.shiftl a 8 + b) 2) 0x3F)] = [a; b].
Proof.
  unfold is_byte. intros Ha Hb.
  rewrite (Z.shiftl_mul_pow2 a) by lia. change (2 ^ 8) with 256.
  set (tmp := a * 256 + b). assert (tmp = a * 256 + b) as Htmp by reflexivity.
  clearbody tmp.
  cbn [toByteArray].
  rewrite !Z.shiftr_div_pow2, (Z.shiftl_mul_pow2 tmp) by lia.
  change 0x3F with (2 ^ 6 - 1). rewrite !land_low_bits by lia.
  change (2 ^ 6) with 64. change (2 ^ 10) with 1024.
  change (2 ^ 4) with 16. change (2 ^ 2) with 4.
  rewrite !revLookup_lookup by dlia.
  rewrite !Z.shiftl_mul_pow2 by lia.
  rewrite (lor_disjoint (tmp / 1024) ((tmp / 16) mod 64 * 2 ^ 4) 10) by dlia.
  replace (tmp / 1024 * 2 ^ 10 + (tmp / 16) mod 64 * 2 ^ 4)
    with ((tmp / 1024 * 64 + (tmp / 16) mod 64) * 2 ^ 4) by lia.
  rewrite lor_disjoint by dlia.
  change 0xFF with (2 ^ 8 - 1). rewrite !land_low_bits by lia.
  change (2 ^ 4) with 16. change (2 ^ 8) with 256.
  f_equal; [| f_equal]; dlia.
Qed.

Lemma toByteArray_single a :
  is_byte a ->
  toByteArray [lookup (Z.shiftr a 2); lookup (Z.land (Z.shiftl a 4) 0x3F)] = [a].
Proof.
  unfold is_byte. intros Ha. cbn [toByteArray].
  rewrite !Z.shiftr_div_pow2, (Z.shiftl_mul_pow2 a) by lia.
  change 0x3F with (2 ^ 6 - 1). rewrite !land_low_bits by lia.
  change (2 ^ 6) with 64. change (2 ^ 4) with 16. change (2 ^ 2) with 4.
  rewrite !revLookup_lookup by dlia.
  rewrite !Z.shiftl_mul_pow2 by lia.
  rewrite lor_disjoint by dlia.
  change 0xFF with (2 ^ 8 - 1). rewrite !land_low_bits by lia.
  change (2 ^ 2) with 4. change (2 ^ 8) with 256.
  f_equal. dlia.
Qed.

Lemma cleaned_lookup i rest :
  0 <= i < 64 -> cleaned (lookup i :: rest) = lookup i :: cleaned rest.
Proof.
  intros Hi. destruct (lookup_facts i Hi) as (_ & Hv & Hp).
  unfold cleaned. cbn [beforePad]. rewrite Hp. cbn [List.filter]. rewrite Hv.
  reflexivity.
Qed.

Lemma cleaned_pad rest : cleaned (padChar :: rest) = [].
Proof. reflexivity. Qed.

Lemma toByteArray_short s :
  toByteArray (if Z.of_nat (length s) <? 2 then [] else s) = toByteArray s.
Proof.
  destruct s as [| a [| b s]]; reflexivity || (cbn [length]; zcmp; reflexivity).
Qed.

Lemma base64ToBytes_cleaned str : base64ToBytes str = toByteArray (cleaned str).
Proof. unfold base64ToBytes, base64clean. apply toByteArray_short. Qed.

(** Round trip of the base64 codec. *)
Lemma base64_roundtrip (data : bytes) :
  Forall is_byte data -> base64ToBytes (fromByteArray data) = data.
Proof.
  rewrite base64ToBytes_cleaned.
  induction data as [| a | a b | a b c rest IH] using list_ind3; intros Hok.
  - reflexivity.
  - apply Forall_cons_1 in Hok as [Ha _]. pose proof Ha as Ha'. unfold is_byte in Ha'.
    cbn [fromByteArray]. cbv zeta.
    rewrite cleaned_lookup.
    2:{ rewrite Z.shiftr_div_pow2 by lia. change (2 ^ 2) with 4. dlia. }
    rewrite cleaned_lookup.
    2:{ change 0x3F with (2 ^ 6 - 1). rewrite land_low_bits by lia.
        change (2 ^ 6) with 64. dlia. }
    rewrite cleaned_pad. apply toByteArray_single. assumption.
  - apply Forall_cons_1 in Hok as [Ha Hok]. apply Forall_cons_1 in Hok as [Hb _].
    pose proof Ha as Ha'. pose proof Hb as Hb'. unfold is_byte in Ha', Hb'.
    cbn [fromByteArray]. cbv zeta.
    assert (Z.shiftl a 8 + b = a * 256 + b) as Htmp
      by (rewrite Z.shiftl_mul_pow2 by lia; reflexivity).
    rewrite cleaned_lookup.
    2:{ rewrite Htmp, Z.shiftr_div_pow2 by lia. change (2 ^ 10) with 1024. dlia. }
    rewrite cleaned_lookup.
    2:{ change 0x3F with (2 ^ 6 - 1). rewrite land_low_bits by lia.
        change (2 ^ 6) with 64. dlia. }
    rewrite cleaned_lookup.
    2:{ change 0x3F with (2 ^ 6 - 1). rewrite land_low_bits by lia.
        change (2 ^ 6) with 64. dlia. }
    rewrite cleaned_pad. apply toByteArray_pair; assumption.
  - apply Forall_cons_1 in Hok as [Ha Hok]. apply Forall_cons_1 in Hok as [Hb Hok].
    apply Forall_cons_1 in Hok as [Hc Hok].
    cbn [fromByteArray]. cbv zeta. rewrite triplet_value by assumption.
    unfold tripletToBase64 at 1. cbn [app].
    change 0x3F with (2 ^ 6 - 1). rewrite !land_low_bits by lia.
    change (2 ^ 6) with 64.
    rewrite !cleaned_lookup by dlia.
    rewrite <- (IH Hok) at 2.
    rewrite <- toByteArray_quad by assumption.
    unfold tripletToBase64. cbn [app].
    change 0x3F with (2 ^ 6 - 1). rewrite !land_low_bits by lia.
    reflexivity.
Qed.

Example base64_hunter2 :
  fromByteArray (utf8ToBytes (js "hunter2")) = js "aHVudGVyMg==".
Proof. reflexivity. Qed.

(** Decoding is lenient: white space and other characters outside the
    alphabet are skipped and the padding may be missing. *)
Example base64_lenient :
  base64ToBytes (js " aHVu dGV!yMg") = utf8ToBytes (js "hunter2").
Proof. reflexivity. Qed.

End Base64Facts.
Import Base64Facts.

Module Sha256Facts.

Example sha256_abc :
  toHex (sha256 (utf8ToBytes (js "abc")))
  = js "ba7816bf8f01cfea414140de5dae2223b00361a396177a9cb410ff61f20015ad".
Proof. vm_compute. reflexivity. Qed.

Example sha256_empty :
  toHex (sha256 [])
  = js "e3b0c44298fc1c149afbf4c8996fb92427ae41e4649b934ca495991b7852b855".
Proof. vm_compute. reflexivity. Qed.

Example sha256_two_blocks :
  toHex (sha256 (utf8ToBytes
                   (js "abcdbcdecdefdefgefghfghighijhijkijkljklmklmnlmnomnopnopq")))
  = js "248d6a61d20638b8e5c026930c3e6039a33ce45964ff2167f6ecedd419db06c1".
Proof. vm_compute. reflexivity. Qed.

(** A digest is 32 octets. *)
Lemma sha256_length msg : length (sha256 msg) = 32%nat.
Proof. unfold sha256. cbv zeta. rewrite !length_app. reflexivity. Qed.

Lemma be32_bytes w : Forall is_byte (be32 w).
Proof. unfold be32, is_byte. repeat constructor; apply Z.mod_pos_bound; lia. Qed.

Lemma sha256_bytes msg : Forall is_byte (sha256 msg).
Proof.
  unfold sha256. cbv zeta. repeat (apply Forall_app; split); apply be32_bytes.
Qed.

End Sha256Facts.
Import Sha256Facts.

Module ChaCha20Poly1305Facts.

(** Lengths of cut lists. *)
Lemma chunks_fuel_length {A} (n : nat) :
  (0 < n)%nat ->
  forall k fuel (l : list A),
    length l = (k * n)%nat -> (length l <= fuel)%nat ->
    length (chunks_fuel fuel n l) = k.
Proof.
  intros Hn. induction k as [| k IH]; intros fuel l Hl Hf.
  - destruct l; [| cbn in Hl; lia]. destruct fuel; reflexivity.
  - destruct l as [| x l]; [cbn in Hl; lia |].
    destruct fuel as [| fuel]; [cbn in Hf; lia |].
    cbn [chunks_fuel length]. f_equal. apply IH.
    + rewrite length_drop, Hl. lia.
    + rewrite length_drop. cbn [length] in *. lia.
Qed.

Lemma chunks_length {A} (n k : nat) (l : list A) :
  (0 < n)%nat -> length l = (k * n)%nat -> length (chunks n l) = k.
Proof. intros Hn Hl. apply chunks_fuel_length; [assumption | assumption | lia]. Qed.

Lemma le32_length w : length (le32 w) = 4%nat.
Proof. reflexivity. Qed.

Lemma le64_length w : length (le64 w) = 8%nat.
Proof. reflexivity. Qed.

Lemma flat_map_le32_length l : length (flat_map le32 l) = (4 * length l)%nat.
Proof.
  induction l as [| w l IH]; [reflexivity |].
  cbn [flat_map]. rewrite length_app, le32_length, IH. cbn [length]. lia.
Qed.

(** ChaCha20 blocks are 64 bytes long. *)
Lemma quarterRound_length a b c d st : length (quarterRound a b c d st) = length st.
Proof. unfold quarterRound. cbv zeta. rewrite !length_insert. reflexivity. Qed.

Lemma doubleRound_length st : length (doubleRound st) = length st.
Proof. unfold doubleRound. cbv zeta. rewrite !quarterRound_length. reflexivity. Qed.

Lemma rounds_length n st : length (Nat.iter n doubleRound st) = length st.
Proof.
  induction n as [| n IH]; [reflexivity |].
  change (Nat.iter (S n) doubleRound st)
    with (doubleRound (Nat.iter n doubleRound st)).
  rewrite doubleRound_length. exact IH.
Qed.

Lemma chachaInit_length key counter nonce :
  length key = 32%nat -> length nonce = 12%nat ->
  length (chachaInit key counter nonce) = 16%nat.
Proof.
  intros Hk Hn. unfold chachaInit.
  rewrite !length_app, !length_map.
  rewrite (chunks_length 4 8 key), (chunks_length 4 3 nonce) by (lia || assumption).
  reflexivity.
Qed.

Lemma chachaBlock_length key counter nonce :
  length key = 32%nat -> length nonce = 12%nat ->
  length (chachaBlock key counter nonce) = 64%nat.
Proof.
  intros Hk Hn. unfold chachaBlock. cbv zeta.
  rewrite flat_map_le32_length, length_zip_with, rounds_length.
  rewrite chachaInit_length by assumption. reflexivity.
Qed.

Lemma flat_map_length_const {A B} (f : A -> list B) (k : nat) (l : list A) :
  (forall x, length (f x) = k) -> length (flat_map f l) = (k * length l)%nat.
Proof.
  intros Hf. induction l as [| x l IH]; [cbn; lia |].
  cbn [flat_map length]. rewrite length_app, Hf, IH. lia.
Qed.

Lemma keyStream_length key nonce counter n :
  length key = 32%nat -> length nonce = 12%nat ->
  length (keyStream key nonce counter n) = (64 * n)%nat.
Proof.
  intros Hk Hn. unfold keyStream.
  rewrite (flat_map_length_const _ 64%nat), length_seq; [reflexivity |].
  intros j. apply chachaBlock_length; assumption.
Qed.

Lemma xorStream_length key nonce counter data :
  length key = 32%nat -> length nonce = 12%nat ->
  length (xorStream key nonce counter data) = length data.
Proof.
  intros Hk Hn. unfold xorStream.
  rewrite length_zip_with, keyStream_length by assumption.
  pose proof (Nat.div_mod_eq (length data + 63) 64).
  pose proof (Nat.mod_upper_bound (length data + 63) 64). lia.
Qed.

(** XOR with the same key stream twice gives the data back. *)
Lemma zip_with_lxor_twice (data ks : list Z) :
  (length data <= length ks)%nat ->
  zip_with Z.lxor (zip_with Z.lxor data ks) ks = data.
Proof.
  revert ks. induction data as [| x data IH]; intros ks Hlen; [reflexivity |].
  destruct ks as [| k ks]; [cbn in Hlen; lia |].
  cbn [zip_with]. rewrite IH by (cbn in Hlen; lia).
  rewrite Z.lxor_assoc, Z.lxor_nilpotent, Z.lxor_0_r. reflexivity.
Qed.

Lemma xorStream_involutive key nonce counter data :
  length key = 32%nat -> length nonce = 12%nat ->
  xorStream key nonce counter (xorStream key nonce counter data) = data.
Proof.
  intros Hk Hn.
  pose proof (xorStream_length key nonce counter data Hk Hn) as Hlen.
  unfold xorStream in *. rewrite Hlen.
  apply zip_with_lxor_twice.
  rewrite keyStream_length by assumption.
  pose proof (Nat.div_mod_eq (length data + 63) 64).
  pose proof (Nat.mod_upper_bound (length data + 63) 64). lia.
Qed.

(** Tags are 16 bytes long. *)
Lemma poly1305_length key msg : length (poly1305 key msg) = 16%nat.
Proof. reflexivity. Qed.

Lemma computeTag_length key nonce data aad :
  length (computeTag key nonce data aad) = 16%nat.
Proof. apply poly1305_length. Qed.

(** Everything the cipher writes is an octet. *)
Lemma lxor_byte a b : is_byte a -> is_byte b -> is_byte (Z.lxor a b).
Proof.
  unfold is_byte. intros Ha Hb.
  assert (forallb (fun a => forallb (fun b => (0 <=? Z.lxor a b) && (Z.lxor a b <? 256))
                                    (map Z.of_nat (seq 0 256)))
                  (map Z.of_nat (seq 0 256)) = true) as H by (vm_compute; reflexivity).
  pose proof (forall_below 256 _ H a Ha) as H1. cbv beta in H1.
  pose proof (forall_below 256 _ H1 b Hb) as H2. cbv beta in H2. lia.
Qed.

Lemma zip_with_lxor_bytes (a b : list Z) :
  Forall is_byte a -> Forall is_byte b -> Forall is_byte (zip_with Z.lxor a b).
Proof.
  intros Ha. revert b. induction Ha as [| x a Hx Ha IH]; intros b Hb; [constructor |].
  destruct Hb as [| y b Hy Hb]; [constructor |].
  cbn [zip_with]. constructor; [apply lxor_byte; assumption | apply IH; assumption].
Qed.

Lemma le32_bytes w : Forall is_byte (le32 w).
Proof. unfold le32, is_byte. repeat constructor; apply Z.mod_pos_bound; lia. Qed.

Lemma le64_bytes w : Forall is_byte (le64 w).
Proof. unfold le64. apply Forall_app. split; apply le32_bytes. Qed.

Lemma flat_map_bytes {A} (f : A -> list Z) (l : list A) :
  (forall x, Forall is_byte (f x)) -> Forall is_byte (flat_map f l).
Proof.
  intros Hf. induction l as [| x l IH]; [constructor |].
  cbn [flat_map]. apply Forall_app. split; [apply Hf | exact IH].
Qed.

Lemma chachaBlock_bytes key counter nonce :
  Forall is_byte (chachaBlock key counter nonce).
Proof. unfold chachaBlock. cbv zeta. apply flat_map_bytes. apply le32_bytes. Qed.

Lemma xorStream_bytes key nonce counter data :
  Forall is_byte data -> Forall is_byte (xorStream key nonce counter data).
Proof.
  intros Hd. unfold xorStream. apply zip_with_lxor_bytes; [assumption |].
  unfold keyStream. apply flat_map_bytes. intros j. apply chachaBlock_bytes.
Qed.

Lemma computeTag_bytes key nonce data aad :
  Forall is_byte (computeTag key nonce data aad).
Proof.
  unfold computeTag, poly1305. cbv zeta. apply Forall_app. split; apply le64_bytes.
Qed.

(** [equalBytes] decides equality. *)
Lemma fold_lor_zero (l : list Z) acc :
  fold_left Z.lor l acc = 0 <-> acc = 0 /\ Forall (fun x => x = 0) l.
Proof.
  revert acc. induction l as [| x l IH]; intros acc; cbn [fold_left].
  - split; [intros ->; split; [reflexivity | constructor] | intros [-> _]; reflexivity].
  - rewrite IH, Z.lor_eq_0_iff. split.
    + intros [[-> ->] Hl]. split; [reflexivity | constructor; [reflexivity | assumption]].
    + intros [-> Hl]. apply Forall_cons_1 in Hl as [-> Hl]. auto.
Qed.

Lemma zip_with_lxor_zero (a b : list Z) :
  length a = length b ->
  Forall (fun x => x = 0) (zip_with Z.lxor a b) <-> a = b.
Proof.
  revert b. induction a as [| x a IH]; intros [| y b] Hlen; try discriminate.
  - split; [reflexivity | constructor].
  - cbn [zip_with]. injection Hlen as Hlen. split.
    + intros H. apply Forall_cons_1 in H as [Hxy H].
      apply Z.lxor_eq in Hxy. apply IH in H; [congruence | assumption].
    + intros [= -> ->]. constructor; [apply Z.lxor_nilpotent |].
      apply IH; [assumption | reflexivity].
Qed.

Lemma equalBytes_spec (a b : list Z) : equalBytes a b = true <-> a = b.
Proof.
  unfold equalBytes. rewrite andb_true_iff, Nat.eqb_eq, Z.eqb_eq, fold_lor_zero.
  split.
  - intros [Hlen [_ H]]. apply zip_with_lxor_zero; assumption.
  - intros ->. split; [reflexivity | split; [reflexivity |]].
    apply zip_with_lxor_zero; reflexivity.
Qed.

(** Sealing appends the tag of the encrypted bytes; opening checks it. *)
Lemma aeadEncrypt_eq key nonce plaintext aad :
  length nonce = 12%nat ->
  aeadEncrypt key nonce plaintext aad
  = Ok (xorStream key nonce 1 plaintext
        ++ computeTag key nonce (xorStream key nonce 1 plaintext) aad).
Proof.
  intros Hn. unfold aeadEncrypt. rewrite Hn. reflexivity.
Qed.

Lemma aeadDecrypt_sealed key nonce data aad :
  length nonce = 12%nat ->
  aeadDecrypt key nonce (data ++ computeTag key nonce data aad) aad
  = Ok (xorStream key nonce 1 data).
Proof.
  intros Hn. unfold aeadDecrypt, tagLength. rewrite Hn. cbn [Nat.eqb negb].
  rewrite length_app, computeTag_length.
  rewrite (proj2 (Nat.ltb_ge _ _)) by lia.
  replace (length data + 16 - 16)%nat with (length data) by lia. cbv zeta.
  rewrite take_app_length, drop_app_length.
  rewrite (proj2 (equalBytes_spec _ _) eq_refl). reflexivity.
Qed.

Lemma aead_roundtrip key nonce plaintext aad sealed :
  length key = 32%nat -> length nonce = 12%nat ->
  aeadEncrypt key nonce plaintext aad = Ok sealed ->
  aeadDecrypt key nonce sealed aad = Ok plaintext
  /\ length sealed = (length plaintext + 16)%nat.
Proof.
  intros Hk Hn. rewrite aeadEncrypt_eq by assumption. intros [= <-]. split.
  - rewrite aeadDecrypt_sealed by assumption.
    rewrite xorStream_involutive by assumption. reflexivity.
  - rewrite length_app, computeTag_length, xorStream_length by assumption.
    reflexivity.
Qed.

Lemma aeadDecrypt_Ok key nonce ciphertext aad plaintext :
  aeadDecrypt key nonce ciphertext aad = Ok plaintext ->
  length nonce = 12%nat /\ (16 <= length ciphertext)%nat
  /\ drop (length ciphertext - 16) ciphertext
     = computeTag key nonce (take (length ciphertext - 16) ciphertext) aad
  /\ plaintext = xorStream key nonce 1 (take (length ciphertext - 16) ciphertext).
Proof.
  unfold aeadDecrypt, tagLength.
  destruct (Nat.eqb_spec (length nonce) 12) as [Hn | Hn]; [| discriminate]. cbn [negb].
  destruct (Nat.ltb_spec (length ciphertext) 16) as [Hlen | Hlen]; [discriminate |]. cbv zeta.
  destruct (equalBytes _ _) eqn:Htag; [| discriminate]. cbn [negb].
  intros [= <-]. apply equalBytes_spec in Htag.
  repeat split; [lia | lia | assumption].
Qed.

Lemma aeadDecrypt_bad_tag key nonce ciphertext aad :
  length nonce = 12%nat -> (16 <= length ciphertext)%nat ->
  drop (length ciphertext - 16) ciphertext
    <> computeTag key nonce (take (length ciphertext - 16) ciphertext) aad ->
  aeadDecrypt key nonce ciphertext aad = Throw InvalidTag.
Proof.
  intros Hn Hlen Htag. unfold aeadDecrypt, tagLength. rewrite Hn. cbn [Nat.eqb negb].
  rewrite (proj2 (Nat.ltb_ge _ _)) by lia. cbv zeta.
  destruct (equalBytes _ _) eqn:E; [| reflexivity].
  apply equalBytes_spec in E. contradiction.
Qed.

(** The cipher object, made and used as the library documents it. *)
Lemma chacha20poly1305_roundtrip key nonce aad plaintext :
  length key = 32%nat -> length nonce = 12%nat ->
  exists cipher sealed,
    chacha20poly1305 (JsUint8Array key) (JsUint8Array nonce) (JsUint8Array aad)
    = Ok cipher
    /\ encrypt cipher (JsUint8Array plaintext) JsUndefined = Ok sealed
    /\ length sealed = (length plaintext + 16)%nat
    /\ decrypt cipher (JsUint8Array sealed) JsUndefined = Ok plaintext.
Proof.
  intros Hk Hn.
  exists (mkCipher key nonce aad),
         (xorStream key nonce 1 plaintext
          ++ computeTag key nonce (xorStream key nonce 1 plaintext) aad).
  unfold chacha20poly1305, encrypt, decrypt, checkOutput.
  cbn [isFalsy cipherKey cipherNonce cipherAAD]. rewrite Hn, Hk. cbn [Nat.eqb negb].
  pose proof (aeadEncrypt_eq key nonce plaintext aad Hn) as Henc.
  destruct (aead_roundtrip key nonce plaintext aad _ Hk Hn Henc) as [Hdec Hlen].
  repeat split; assumption.
Qed.

(** Without a nonce no cipher object is made. *)
Lemma chacha20poly1305_nonce_required key AAD :
  chacha20poly1305 (JsUint8Array key) JsUndefined AAD = Throw NonceRequired.
Proof. reflexivity. Qed.

(** The test vector of RFC 8439, section 2.8.2. *)
Example rfc8439_aead :
  let key := map (fun i => 0x80 + Z.of_nat i) (seq 0 32) in
  let nonce := [7; 0; 0; 0; 0x40; 0x41; 0x42; 0x43; 0x44; 0x45; 0x46; 0x47] in
  let aad := [0x50; 0x51; 0x52; 0x53; 0xc0; 0xc1; 0xc2; 0xc3; 0xc4; 0xc5; 0xc6; 0xc7] in
  let plaintext := utf8ToBytes (js "Ladies and Gentlemen of the class of '99: If I could offer you only one tip for the future, sunscreen would be it.") in
  match chacha20poly1305 (JsUint8Array key) (JsUint8Array nonce) (JsUint8Array aad) with
  | Ok cipher =>
      match encrypt cipher (JsUint8Array plaintext) JsUndefined with
      | Ok sealed => toHex (drop (length plaintext) sealed)
      | Throw _ => []
      end
  | Throw _ => []
  end = js "1ae10b594f09e26a7e902ecbd0600691".
Proof. vm_compute. reflexivity. Qed.

End ChaCha20Poly1305Facts.
Import ChaCha20Poly1305Facts.

Module Argon2Facts.

Example blake2b_abc :
  toHex (blake2b 64 (utf8ToBytes (js "abc")))
  = js "ba80a53f981c4d0d6a2797b69f12f6e94c212f14685ac4b74b12bb6fdbffa2d17d87c5392aab792dc252d5de4533cc9518d38aa8dbf1925ab92386edd4009923".
Proof. vm_compute. reflexivity. Qed.

(** The test vector of RFC 9106, section 5.3. *)
Example rfc9106_argon2id :
  match argon2id (JsUint8Array (repeat 1 32)) (JsUint8Array (repeat 2 16))
                 (JsObject [field "t" (JsNumber 3); field "m" (JsNumber 32);
                            field "p" (JsNumber 4); field "dkLen" (JsNumber 32);
                            field "key" (JsUint8Array (repeat 3 8));
                            field "personalization" (JsUint8Array (repeat 4 12))]) with
  | Ok tag => toHex tag
  | Throw _ => []
  end = js "0d640df58d78766c08c037a34a8b53c9d01ef0452d75b65eb52520e96b01e659".
Proof. vm_compute. reflexivity. Qed.

(** A digest has the length that was asked for, up to 64 bytes. *)
Lemma blake2bCompress_length h block t final :
  length (blake2bCompress h block t final) = 8%nat.
Proof. unfold blake2bCompress. cbv zeta. rewrite length_map. reflexivity. Qed.

Lemma blake2bBlocks_length blocks :
  forall h t, length (blake2bBlocks h t blocks) = 8%nat.
Proof.
  induction blocks as [| b rest IH]; intros h t.
  - apply blake2bCompress_length.
  - destruct rest as [| b' rest'].
    + apply blake2bCompress_length.
    + change (blake2bBlocks h t (b :: b' :: rest'))
        with (blake2bBlocks (blake2bCompress h b (t + 128) false) (t + 128)
                            (b' :: rest')).
      apply IH.
Qed.

Lemma blake2b_length outlen msg :
  (outlen <= 64)%nat -> length (blake2b outlen msg) = outlen.
Proof.
  intros H. unfold blake2b. cbv zeta.
  rewrite length_take, (flat_map_length_const _ 8%nat) by apply le64_length.
  rewrite blake2bBlocks_length. lia.
Qed.

Lemma blake2b_bytes outlen msg : Forall is_byte (blake2b outlen msg).
Proof.
  unfold blake2b. cbv zeta. apply Forall_take. apply flat_map_bytes, le64_bytes.
Qed.

Lemma Hprime_short T input :
  (T <= 64)%nat ->
  length (Hprime T input) = T /\ Forall is_byte (Hprime T input).
Proof.
  intros H. unfold Hprime. cbv zeta.
  rewrite (proj2 (Nat.leb_le T 64) H).
  split; [apply blake2b_length; assumption | apply blake2b_bytes].
Qed.

Lemma argon2_tag y P S K X t m p T :
  0 <= T <= 64 ->
  length (argon2 y P S K X t m p T) = Z.to_nat T
  /\ Forall is_byte (argon2 y P S K X t m p T).
Proof. intros H. unfold argon2. cbv zeta. apply Hprime_short. lia. Qed.

(** [argon2id] looks at the salt before it looks at the options: a salt
    that is an object is refused, whatever else is passed. *)
Lemma argon2id_object_salt password fields opts :
  argon2id (JsUint8Array password) (JsObject fields) opts = Throw Uint8ArrayExpected.
Proof. reflexivity. Qed.

End Argon2Facts.
Import Argon2Facts.

Module EncryptionFacts.

(** Running a sequence of calls. *)
Lemma bind_ok {A B} (c : M A) (k : A -> M B) w a w' :
  c w = (Ok a, w') -> bind c k w = k a w'.
Proof. intros H. unfold bind. rewrite H. reflexivity. Qed.

Lemma bind_throw {A B} (c : M A) (k : A -> M B) w e w' :
  c w = (Throw e, w') -> bind c k w = (Throw e, w').
Proof. intros H. unfold bind. rewrite H. reflexivity. Qed.

Lemma requireSessionKey_held w key :
  sessionKey w = Some key -> requireSessionKey w = (Ok key, w).
Proof. intros H. unfold requireSessionKey, bind, getSessionKey. rewrite H. reflexivity. Qed.

Lemma requireSessionKey_none w :
  sessionKey w = None -> requireSessionKey w = (Throw SessionNotInitialized, w).
Proof. intros H. unfold requireSessionKey, bind, getSessionKey. rewrite H. reflexivity. Qed.

#[global] Opaque argon2.

(** Line 33: the object that holds the salt stands where [argon2id] takes
    the salt itself, so the call throws and nothing is assigned. *)
Lemma initializeEncryptionSession_eq lower u pw s w :
  initializeEncryptionSession lower u pw s w
  = (Throw (KdfFailure Uint8ArrayExpected), w).
Proof. reflexivity. Qed.

Lemma clearEncryptionSession_eq w :
  clearEncryptionSession w
  = (Ok tt,
     mkWorld (match sessionKey w with
              | Some key => alter (fun a => repeat 0 (length a)) key (heap w)
              | None => heap w
              end) None (entropy w) (drawn w)).
Proof.
  unfold clearEncryptionSession, bind, getSessionKey.
  destruct (sessionKey w); reflexivity.
Qed.

(** Lines 54 to 56: with a key held, the nonce is drawn and then the
    cipher object is asked for without it. *)
Lemma encryptSecret_eq x w :
  encryptSecret x w
  = match sessionKey w with
    | Some _ => (Throw (CipherFailure NonceRequired), afterDraw w 12)
    | None => (Throw SessionNotInitialized, w)
    end.
Proof.
  unfold encryptSecret.
  destruct (sessionKey w) as [key |] eqn:Hkey.
  - rewrite (bind_ok _ _ w key w (requireSessionKey_held w key Hkey)). reflexivity.
  - apply (bind_throw _ _ w _ w (requireSessionKey_none w Hkey)).
Qed.

(** Lines 66 and 67. *)
Lemma decryptSecret_eq c n w :
  decryptSecret c n w
  = (Throw (match sessionKey w with
            | Some _ => CipherFailure NonceRequired
            | None => SessionNotInitialized
            end), w).
Proof.
  unfold decryptSecret.
  destruct (sessionKey w) as [key |] eqn:Hkey.
  - rewrite (bind_ok _ _ w key w (requireSessionKey_held w key Hkey)). reflexivity.
  - apply (bind_throw _ _ w _ w (requireSessionKey_none w Hkey)).
Qed.

(** No call of the module gets it out of its first state. *)
Lemma reachable_initial lower w : reachable lower w -> exists e, w = initialWorld e.
Proof.
  induction 1 as [e | w u pw s _ [e ->] | w _ [e ->] | w x _ [e ->]
                  | w c n _ [e ->] | w _ [e ->]]; exists e.
  - reflexivity.
  - rewrite initializeEncryptionSession_eq. reflexivity.
  - rewrite clearEncryptionSession_eq. reflexivity.
  - rewrite encryptSecret_eq. reflexivity.
  - rewrite decryptSecret_eq. reflexivity.
  - reflexivity.
Qed.

Lemma bobWorld_reachable : reachable asciiOnly bobWorld.
Proof. apply reach_initialize, reach_start. Qed.


End EncryptionFacts.
Import EncryptionFacts.

Module SessionSpec.

(** C1, what the code does instead.  In every state the module can reach,
    whatever calls came before ([initializeEncryptionSession] included),
    [encryptSecret] throws the "not initialized" error and leaves the world
    as it was: no ciphertext and nonce come into being for [decryptSecret]
    to open. *)
Theorem roundtrip_never_starts lower w x :
  reachable lower w -> encryptSecret x w = (Throw SessionNotInitialized, w).
Proof.
  intros Hr. destruct (reachable_initial lower w Hr) as [e ->].
  apply encryptSecret_eq.
Qed.

Lemma roundtrip_never_starts_witness :
  encryptSecret (js "hunter2") bobWorld = (Throw SessionNotInitialized, bobWorld).
Proof. apply (roundtrip_never_starts asciiOnly). exact bobWorld_reachable. Defined.






(** C5. When no session key is held (in particular before any
    initialization and after [clearEncryptionSession]), [encryptSecret] and
    [decryptSecret] throw the "not initialized" error at once and leave the
    world, random source included, as it was. *)
Theorem no_session_key_throws w plaintext ciphertextBase64 nonceBase64 :
  sessionKey w = None
  \/ (exists e, w = initialWorld e)
  \/ (exists w0, w = snd (clearEncryptionSession w0)) ->
  encryptSecret plaintext w = (Throw SessionNotInitialized, w)
  /\ decryptSecret ciphertextBase64 nonceBase64 w
     = (Throw SessionNotInitialized, w).
Proof.
  intros H.
  assert (sessionKey w = None) as Hnone.
  { destruct H as [H | [[e ->] | [w0 ->]]]; [exact H | reflexivity |].
    rewrite clearEncryptionSession_eq. reflexivity. }
  split.
  - unfold encryptSecret.
    apply (bind_throw _ _ w _ w (requireSessionKey_none w Hnone)).
  - unfold decryptSecret.
    apply (bind_throw _ _ w _ w (requireSessionKey_none w Hnone)).
Qed.

Lemma no_session_key_throws_witness :
  encryptSecret (js "hunter2") (snd (clearEncryptionSession bobWorld))
  = (Throw SessionNotInitialized, snd (clearEncryptionSession bobWorld))
  /\ decryptSecret (js "aHVudGVy") (js "AAAAAAAAAAAAAAAA")
                   (snd (clearEncryptionSession bobWorld))
     = (Throw SessionNotInitialized, snd (clearEncryptionSession bobWorld)).
Proof.
  apply no_session_key_throws. right. right. exists bobWorld. reflexivity.
Defined.

(** C8, what the code does instead.  Every call of
    [initializeEncryptionSession] throws and leaves the world as it was,
    and so does any number of calls with the same arguments: no key bytes
    exist to be compared, and nothing is sealed. *)
Theorem reinitialize_installs_no_key lower u pw s n w :
  initializeEncryptionSession lower u pw s w
  = (Throw (KdfFailure Uint8ArrayExpected), w)
  /\ reinitialize lower u pw s n w = w.
Proof.
  split; [apply initializeEncryptionSession_eq |].
  unfold reinitialize. induction n as [| n IH]; [reflexivity |].
  change (Nat.iter (S n) ?f w) with (f (Nat.iter n f w)).
  rewrite IH. rewrite initializeEncryptionSession_eq. reflexivity.
Qed.

(** C10, what the code does instead.  [encryptSecret] returns no
    ciphertext in any world: with a key held it draws the 12 bytes of the
    nonce and then throws when it asks for the cipher object without the
    nonce; with no key held it throws the "not initialized" error. *)
Theorem encryptSecret_returns_no_ciphertext plaintext w :
  encryptSecret plaintext w
  = match sessionKey w with
    | Some _ => (Throw (CipherFailure NonceRequired), afterDraw w 12)
    | None => (Throw SessionNotInitialized, w)
    end.
Proof. apply encryptSecret_eq. Qed.

End SessionSpec.
Import SessionSpec.

Module SessionProperties.















(** Worlds are records of four fields. *)
Lemma world_eta w : mkWorld (heap w) (sessionKey w) (entropy w) (drawn w) = w.
Proof. destruct w; reflexivity. Qed.

(** X2. [clearEncryptionSession] overwrites every byte of the held key with
    0 (the array keeps its length), drops the reference, and touches no
    other array and not the random source. *)
Theorem clear_wipes_key w key k :
  sessionKey w = Some key -> heap w !! key = Some k ->
  exists w',
    clearEncryptionSession w = (Ok tt, w')
    /\ sessionKey w' = None
    /\ heap w' !! key = Some (repeat 0 (length k))
    /\ (forall other, other <> key -> heap w' !! other = heap w !! other)
    /\ length (heap w') = length (heap w)
    /\ entropy w' = entropy w /\ drawn w' = drawn w.
Proof.
  intros Hkey Hk. eexists. split; [apply clearEncryptionSession_eq |].
  rewrite Hkey. cbn [sessionKey heap entropy drawn].
  split; [reflexivity |]. split.
  - rewrite list_lookup_alter_eq, Hk. reflexivity.
  - split; [| split; [apply length_alter | split; reflexivity]].
    intros other Hne. apply list_lookup_alter_ne. congruence.
Qed.

Lemma clear_wipes_key_witness :
  exists w',
    clearEncryptionSession
      (mkWorld [[1; 2; 3]; [7; 7; 7; 7]] (Some 1%nat) sampleEntropy 5)
    = (Ok tt, w')
    /\ sessionKey w' = None
    /\ heap w' !! 1%nat = Some (repeat 0 (length [7; 7; 7; 7]))
    /\ (forall other, other <> 1%nat ->
                      heap w' !! other = [[1; 2; 3]; [7; 7; 7; 7]] !! other)
    /\ length (heap w') = length [[1; 2; 3]; [7; 7; 7; 7]]
    /\ entropy w' = sampleEntropy /\ drawn w' = 5%nat.
Proof.
  apply (clear_wipes_key
           (mkWorld [[1; 2; 3]; [7; 7; 7; 7]] (Some 1%nat) sampleEntropy 5)
           1%nat [7; 7; 7; 7]); reflexivity.
Defined.

(** X3. [clearEncryptionSession] never throws; with no key held it changes
    nothing, and calling it twice is the same as calling it once. *)
Theorem clear_idempotent w :
  fst (clearEncryptionSession w) = Ok tt
  /\ snd (clearEncryptionSession (snd (clearEncryptionSession w)))
     = snd (clearEncryptionSession w)
  /\ (sessionKey w = None -> clearEncryptionSession w = (Ok tt, w)).
Proof.
  rewrite !clearEncryptionSession_eq. cbn [fst snd sessionKey heap entropy drawn].
  split; [reflexivity | split; [reflexivity |]].
  intros Hnone. rewrite Hnone. rewrite <- Hnone. rewrite world_eta. reflexivity.
Qed.

Lemma clear_idempotent_witness :
  fst (clearEncryptionSession (initialWorld sampleEntropy)) = Ok tt
  /\ snd (clearEncryptionSession (snd (clearEncryptionSession (initialWorld sampleEntropy))))
     = snd (clearEncryptionSession (initialWorld sampleEntropy))
  /\ (sessionKey (initialWorld sampleEntropy) = None ->
      clearEncryptionSession (initialWorld sampleEntropy)
      = (Ok tt, initialWorld sampleEntropy)).
Proof. apply (clear_idempotent (initialWorld sampleEntropy)). Defined.

(** X4. [isEncryptionReady] answers whether a key is held and changes
    nothing; a call of [initializeEncryptionSession] leaves its answer as
    it was, and after [clearEncryptionSession] it is false. *)
Theorem isEncryptionReady_tracks_session lower u pw s w :
  isEncryptionReady w
  = (Ok (match sessionKey w with Some _ => true | None => false end), w)
  /\ isEncryptionReady (snd (initializeEncryptionSession lower u pw s w))
     = isEncryptionReady w
  /\ fst (isEncryptionReady (snd (clearEncryptionSession w))) = Ok false.
Proof.
  split; [reflexivity |]. split.
  - rewrite initializeEncryptionSession_eq. reflexivity.
  - rewrite clearEncryptionSession_eq. reflexivity.
Qed.



Lemma lookup_text i : 0 <= i < 64 -> base64Text (lookup i).
Proof. intros Hi. left. apply lookup_facts, Hi. Qed.

Lemma fromByteArray_shape (data : bytes) :
  Forall is_byte data ->
  Z.of_nat (length (fromByteArray data)) = 4 * ((Z.of_nat (length data) + 2) / 3)
  /\ Forall base64Text (fromByteArray data).
Proof.
  induction data as [| a | a b | a b c rest IH] using list_ind3; intros Hok.
  - split; [reflexivity | constructor].
  - apply Forall_cons_1 in Hok as [Ha _]. unfold is_byte in Ha.
    split; [reflexivity |]. cbn [fromByteArray]. cbv zeta.
    repeat apply Forall_cons_2; try apply Forall_nil_2;
      try (right; reflexivity); apply lookup_text.
    + rewrite Z.shiftr_div_pow2 by lia. change (2 ^ 2) with 4. dlia.
    + change 0x3F with (2 ^ 6 - 1). rewrite land_low_bits by lia.
      change (2 ^ 6) with 64. dlia.
  - apply Forall_cons_1 in Hok as [Ha Hok]. apply Forall_cons_1 in Hok as [Hb _].
    unfold is_byte in Ha, Hb.
    split; [reflexivity |]. cbn [fromByteArray]. cbv zeta.
    assert (Z.shiftl a 8 + b = a * 256 + b) as Htmp
      by (rewrite Z.shiftl_mul_pow2 by lia; reflexivity).
    repeat apply Forall_cons_2; try apply Forall_nil_2;
      try (right; reflexivity); apply lookup_text.
    + rewrite Htmp, Z.shiftr_div_pow2 by lia. change (2 ^ 10) with 1024. dlia.
    + change 0x3F with (2 ^ 6 - 1). rewrite land_low_bits by lia.
      change (2 ^ 6) with 64. dlia.
    + change 0x3F with (2 ^ 6 - 1). rewrite land_low_bits by lia.
      change (2 ^ 6) with 64. dlia.
  - apply Forall_cons_1 in Hok as [_ Hok]. apply Forall_cons_1 in Hok as [_ Hok].
    apply Forall_cons_1 in Hok as [_ Hok].
    destruct (IH Hok) as [IHlen IHtext].
    cbn [fromByteArray]. cbv zeta. split.
    + rewrite length_app. unfold tripletToBase64. cbn [length].
      rewrite !Nat2Z.inj_succ, Nat2Z.inj_add, IHlen. cbn [Z.of_nat].
      dlia.
    + apply Forall_app. split; [| exact IHtext].
      unfold tripletToBase64.
      change 0x3F with (2 ^ 6 - 1). rewrite !land_low_bits by lia.
      change (2 ^ 6) with 64.
      repeat apply Forall_cons_2; try apply Forall_nil_2; apply lookup_text; dlia.
Qed.

(** X8. [base64Decode] undoes [base64Encode] on every byte array, and the
    text [base64Encode] writes is plain base64: only characters of the
    alphabet and '=', four for every three bytes or part thereof. *)
Theorem base64_codec_roundtrip (data : bytes) :
  Forall is_byte data ->
  base64Decode (base64Encode data) = data
  /\ Z.of_nat (length (base64Encode data))
     = 4 * ((Z.of_nat (length data) + 2) / 3)
  /\ Forall (fun c => isBase64Char c = true \/ c = padChar) (base64Encode data).
Proof.
  intros Hok. split; [apply base64_roundtrip, Hok |].
  apply fromByteArray_shape, Hok.
Qed.

Lemma base64_codec_roundtrip_witness :
  base64Decode (base64Encode [0; 255; 16; 128]) = [0; 255; 16; 128]
  /\ Z.of_nat (length (base64Encode [0; 255; 16; 128]))
     = 4 * ((Z.of_nat (length [0; 255; 16; 128]) + 2) / 3)
  /\ Forall (fun c => isBase64Char c = true \/ c = padChar)
            (base64Encode [0; 255; 16; 128]).
Proof.
  apply (base64_codec_roundtrip [0; 255; 16; 128]).
  unfold is_byte. repeat constructor; lia.
Defined.

(** X9. The module never leaves its first state: whatever exported
    functions are called, in whatever order, no array is allocated, no key
    is held, no random byte is drawn, and [isEncryptionReady] answers
    false. *)
Theorem session_never_opens lower w :
  reachable lower w ->
  heap w = [] /\ sessionKey w = None /\ drawn w = 0%nat
  /\ isEncryptionReady w = (Ok false, w).
Proof.
  intros Hr. destruct (reachable_initial lower w Hr) as [e ->].
  repeat split.
Qed.

Lemma session_never_opens_witness :
  let w := snd (encryptSecret (js "hunter2")
                  (snd (clearEncryptionSession
                          (snd (decryptSecret (js "aHVudGVy") (js "AAAAAAAAAAAAAAAA")
                                  bobWorld))))) in
  heap w = [] /\ sessionKey w = None /\ drawn w = 0%nat
  /\ isEncryptionReady w = (Ok false, w).
Proof.
  apply (session_never_opens asciiOnly).
  apply reach_encrypt, reach_clear, reach_decrypt, bobWorld_reachable.
Defined.

(** Hexadecimal text determines the bytes. *)
Lemma hexDigit_injective a b :
  0 <= a < 16 -> 0 <= b < 16 -> hexDigit a = hexDigit b -> a = b.
Proof. unfold hexDigit. intros Ha Hb. zcmp; lia. Qed.

Lemma toHex_injective (a b : bytes) :
  Forall is_byte a -> Forall is_byte b -> toHex a = toHex b -> a = b.
Proof.
  intros Ha. revert b. induction Ha as [| x a Hx Ha IH]; intros b Hb H.
  - destruct Hb; [reflexivity | discriminate].
  - destruct Hb as [| y b Hy Hb]; [discriminate |].
    unfold toHex in H. cbn [flat_map app] in H.
    injection H as H1 H2 H3. unfold is_byte in Hx, Hy.
    apply hexDigit_injective in H1; [| dlia | dlia].
    apply hexDigit_injective in H2; [| dlia | dlia].
    f_equal; [dlia | apply IH; assumption].
Qed.

Lemma toHex_length (a : bytes) : length (toHex a) = (2 * length a)%nat.
Proof.
  unfold toHex. induction a as [| x a IH]; [reflexivity |].
  cbn [flat_map app length]. rewrite IH. lia.
Qed.

(** X11. [verifyPasswordSHA256] accepts what [hashPasswordSHA256] stored
    for another password exactly when the two passwords have the same
    SHA-256 digest; so it always accepts the stored hash of the same
    password, with or without the "sha256$" prefix. *)
Theorem verifyPasswordSHA256_sound password stored :
  (verifyPasswordSHA256 password (hashPasswordSHA256 stored) = true
   <-> sha256 (utf8ToBytes password) = sha256 (utf8ToBytes stored))
  /\ verifyPasswordSHA256 password (hashPasswordSHA256 password) = true
  /\ verifyPasswordSHA256 password (sha256Hex password) = true.
Proof.
  unfold verifyPasswordSHA256, hashPasswordSHA256, strictEquals. cbv zeta.
  split; [| split].
  - rewrite orb_true_iff, !bool_decide_eq_true. split.
    + intros [H | H].
      * apply app_inv_head in H. unfold sha256Hex in H.
        symmetry. apply toHex_injective; [apply sha256_bytes .. | exact H].
      * apply (f_equal (@length Z)) in H.
        rewrite length_app in H. unfold sha256Hex in H.
        rewrite !toHex_length, !sha256_length in H. cbn in H. lia.
    + intros H. left. unfold sha256Hex. rewrite H. reflexivity.
  - rewrite bool_decide_eq_true_2 by reflexivity. reflexivity.
  - rewrite orb_true_iff, !bool_decide_eq_true. right. reflexivity.
Qed.

(** Neither sealing nor opening touches the heap or the key reference. *)
Lemma encryptSecret_frame x w :
  heap (snd (encryptSecret x w)) = heap w
  /\ sessionKey (snd (encryptSecret x w)) = sessionKey w
  /\ entropy (snd (encryptSecret x w)) = entropy w
  /\ (drawn (snd (encryptSecret x w)) = drawn w
      \/ drawn (snd (encryptSecret x w)) = (drawn w + 12)%nat).
Proof.
  rewrite encryptSecret_eq.
  destruct (sessionKey w) as [key |] eqn:Hkey; cbn [snd afterDraw heap sessionKey entropy drawn].
  - split; [reflexivity | split; [exact Hkey | split; [reflexivity |]]].
    right. reflexivity.
  - split; [reflexivity | split; [exact Hkey | split; [reflexivity |]]].
    left. reflexivity.
Qed.

Lemma decryptSecret_frame c n w : snd (decryptSecret c n w) = w.
Proof. rewrite decryptSecret_eq. reflexivity. Qed.

(** X15. Sealing and opening leave the session alone, whatever their
    arguments and whether or not they throw: [decryptSecret] changes
    nothing at all, and [encryptSecret] changes nothing but the position in
    the random source, by 12 bytes or by none. *)
Theorem seal_open_frame x c n w :
  snd (decryptSecret c n w) = w
  /\ heap (snd (encryptSecret x w)) = heap w
  /\ sessionKey (snd (encryptSecret x w)) = sessionKey w
  /\ entropy (snd (encryptSecret x w)) = entropy w
  /\ (drawn (snd (encryptSecret x w)) = drawn w
      \/ drawn (snd (encryptSecret x w)) = (drawn w + 12)%nat).
Proof. split; [apply decryptSecret_frame | apply encryptSecret_frame]. Qed.

End SessionProperties.
Import SessionProperties.

